(** * BlueGuard Security Tools: password strength scorer and generator

    A shallow embedding of the two pieces of logic of [app.py]:
    [rate_password] (with its helpers) and [generate_password] (with
    [build_charset]), followed by the properties proved about them.

    Conventions of the embedding.
    - A Python [str] is a list of Unicode code points ([pystr]).
    - The character predicates [str.islower], [str.isupper],
      [str.isdigit], [str.isalnum] and the conversion [str.lower] are
      fixed on ASCII; outside ASCII they are read from the Unicode
      database, which is an interface here ([Unicode]): every theorem
      holds whatever that database answers.
    - The advisory texts and the rating labels are byte strings
      ([string]), exactly the literals of the source.
    - The entropy, a binary64 product in the source, is read as the real
      number it approximates ([bits]); its integer part is cross-checked
      against the binary64 computation.
    - The secure random source is an oracle: a tape of naturals, one
      entry consumed by each call of [randbelow].
    - Exceptions are values ([Raised]); the number of entries consumed on
      the tape is threaded through the generator. *)

From Corelib Require Import PrimFloat.
From stdpp Require Import gmap strings list.
From Stdlib Require Import ZArith Lia.

Local Open Scope Z_scope.

(** ** Strings and characters *)

Abbreviation pystr := (list N).

(** An ASCII literal as a list of code points. *)
Definition str (s : string) : pystr :=
  map Ascii.N_of_ascii (String.list_ascii_of_string s).

(** The part of the Unicode character database the program consults for
    characters outside ASCII. [uc_lower] is [str.lower] on a whole string
    (lower-casing may change the number of code points and depends on the
    context of a character). *)
Class Unicode := {
  uc_islower : N → bool;
  uc_isupper : N → bool;
  uc_isdigit : N → bool;
  uc_isalnum : N → bool;
  uc_lower : pystr → pystr
}.

(** A database that knows no character outside ASCII; enough to run the
    program on ASCII inputs. *)
Definition ascii_only : Unicode := {|
  uc_islower := λ _, false;
  uc_isupper := λ _, false;
  uc_isdigit := λ _, false;
  uc_isalnum := λ _, false;
  uc_lower := λ s, s
|}.

Definition is_ascii (c : N) : bool := (c <? 128)%N.
Definition ascii_islower (c : N) : bool := (97 <=? c)%N && (c <=? 122)%N.
Definition ascii_isupper (c : N) : bool := (65 <=? c)%N && (c <=? 90)%N.
Definition ascii_isdigit (c : N) : bool := (48 <=? c)%N && (c <=? 57)%N.
Definition ascii_lower (c : N) : N :=
  if ascii_isupper c then (c + 32)%N else c.

Definition islower `{Unicode} (c : N) : bool :=
  if is_ascii c then ascii_islower c else uc_islower c.
Definition isupper `{Unicode} (c : N) : bool :=
  if is_ascii c then ascii_isupper c else uc_isupper c.
Definition isdigit `{Unicode} (c : N) : bool :=
  if is_ascii c then ascii_isdigit c else uc_isdigit c.
Definition isalnum `{Unicode} (c : N) : bool :=
  if is_ascii c
  then ascii_islower c || ascii_isupper c || ascii_isdigit c
  else uc_isalnum c.

(** [s.lower()] *)
Definition lower `{Unicode} (s : pystr) : pystr :=
  if forallb is_ascii s then map ascii_lower s else uc_lower s.

(** [chunk in s] on strings: [chunk] occurs in [s] as a contiguous slice. *)
Fixpoint startswith (s chunk : pystr) : bool :=
  match chunk, s with
  | [], _ => true
  | _ :: _, [] => false
  | a :: chunk', b :: s' => (a =? b)%N && startswith s' chunk'
  end.

Fixpoint contains (s chunk : pystr) : bool :=
  startswith s chunk ||
  match s with
  | [] => false
  | _ :: s' => contains s' chunk
  end.

(** ** Entropy values

    The source computes [len(pw) * math.log2(size)] in binary64. Every
    float of the program is such a product, so the embedding keeps the
    two integer operands and reads the product as the real number
    [bits_len * log2 bits_size]; the two conversions applied to it are
    then exact integer computations:
    - [int(x)], the integer part, is [Z.log2 (size ^ len)];
    - [round(x, 1)], in tenths of a bit, is the nearest integer to
      [10 * x], that is [(Z.log2 (size ^ (20 * len)) + 1) / 2].
    The score only uses [min(80, int(x))]. *)
Record bits := { bits_len : nat; bits_size : Z }.

(** The literal [0.0]. *)
Definition bits_zero : bits := {| bits_len := 0; bits_size := 1 |}.

(** [int(x)] *)
Definition int (x : bits) : Z :=
  Z.log2 (bits_size x ^ Z.of_nat (bits_len x)).

(** [round(x, 1)], counted in tenths. *)
Definition round1 (x : bits) : Z :=
  (Z.log2 (bits_size x ^ (20 * Z.of_nat (bits_len x))) + 1) / 2.

(** *** The same integer part in binary64

    A cross-check of the reading above against the floats of the source:
    [binary64_log2] lists, for the twelve sizes [_charset_size] can
    return, the binary64 value of [math.log2(size)]; the product with the
    length and the integer part below the cap are then computed with the
    primitive floats. *)
Definition binary64_log2 : list (Z * PrimFloat.float) :=
  [(1, 0x0p+0%float);
   (10, 0x1.a934f0979a371p+1%float); (26, 0x1.2cd4011c8f119p+2%float);
   (33, 0x1.42d75a6eb1dfbp+2%float); (36, 0x1.4ae00d1cfdeb4p+2%float);
   (43, 0x1.5b47ebf73882ap+2%float); (52, 0x1.6cd4011c8f119p+2%float);
   (59, 0x1.787d3945c340bp+2%float); (62, 0x1.7d118d66c4d4ep+2%float);
   (69, 0x1.86f210902b6afp+2%float); (85, 0x1.9a33760a7f605p+2%float);
   (95, 0x1.a47883a84e4f9p+2%float)].

(** [float(n)], exact for the lengths that matter. *)
Fixpoint binary64_of_nat (n : nat) : PrimFloat.float :=
  match n with
  | O => 0%float
  | S n' => PrimFloat.add (binary64_of_nat n') 1%float
  end.

(** [min(cap, int(x))] for a float [x] that is not negative: the number
    of integers from 1 to [cap] that are at most [x]. *)
Definition binary64_int_capped (cap : nat) (x : PrimFloat.float) : Z :=
  Z.of_nat (length (filter (λ k, PrimFloat.leb (binary64_of_nat k) x = true)
                           (seq 1 cap))).

(** Python's [True] is [1] under [sum] and [+]. *)
Definition b2z (b : bool) : Z := if b then 1 else 0.

(** ** Password strength logic *)

Definition COMMON : gset pystr :=
  list_to_set (map str
    ["123456"; "password"; "12345678"; "qwerty"; "123456789"; "12345";
     "111111"; "abc123"; "password1"; "admin"; "letmein"; "welcome";
     "iloveyou"; "monkey"; "dragon"; "login"]%string).

Definition SEQUENTIALS : list pystr :=
  map str ["abcdefghijklmnopqrstuvwxyz"; "qwertyuiop"; "asdfghjkl";
           "zxcvbnm"; "0123456789"]%string.

(** The dictionary returned by [rate_password]; [entropy] is counted in
    tenths of a bit. *)
Record assessment := {
  score : Z;
  rating : string;
  entropy : Z;
  feedback : list string
}.

Section Scorer.
Context `{Unicode}.

Definition _has_lower (s : pystr) : bool := existsb islower s.
Definition _has_upper (s : pystr) : bool := existsb isupper s.
Definition _has_digit (s : pystr) : bool := existsb isdigit s.
Definition _has_symbol (s : pystr) : bool :=
  existsb (λ c, negb (isalnum c)) s.

(** [\1{n-1,}] right after the group: at least [k = n-1] further copies
    of the character [c]. *)
Fixpoint run_of (c : N) (k : nat) (s : pystr) : bool :=
  match k with
  | O => true
  | S k' =>
      match s with
      | [] => false
      | x :: s' => (x =? c)%N && run_of c k' s'
      end
  end.

(** [re.search(rf"(.)\1{{{n-1},}}", s)]: some position holds a character
    other than the newline (which [.] does not match) followed by
    [n-1] copies of itself. *)
Fixpoint search_repeats (n : nat) (s : pystr) : bool :=
  match s with
  | [] => false
  | c :: s' =>
      negb (c =? 10)%N && run_of c (n - 1) s' || search_repeats n s'
  end.

Definition _has_repeats (s : pystr) : bool := search_repeats 3 s.

(** The slices [seq[i:i+window]] for [i] in [range(len(seq)-window+1)]. *)
Definition windows (window : nat) (sq : pystr) : list pystr :=
  map (λ i, take window (drop i sq))
      (seq 0 (length sq + 1 - window)).

Definition _has_sequence (s : pystr) : bool :=
  let low := lower s in
  existsb (λ sq,
    existsb (λ chunk, contains low chunk || contains low (rev chunk))
            (windows 4 sq))
    SEQUENTIALS.

Definition _charset_size (pw : pystr) : Z :=
  let size := 0 in
  let size := if _has_lower pw then size + 26 else size in
  let size := if _has_upper pw then size + 26 else size in
  let size := if _has_digit pw then size + 10 else size in
  let size := if _has_symbol pw then size + 33 else size in
  Z.max 1 size.

Definition estimate_entropy_bits (pw : pystr) : bits :=
  match pw with
  | [] => bits_zero
  | _ => {| bits_len := length pw; bits_size := _charset_size pw |}
  end.

(** [variety = sum([...])] *)
Definition variety (pw : pystr) : Z :=
  b2z (_has_lower pw) + b2z (_has_upper pw) +
  b2z (_has_digit pw) + b2z (_has_symbol pw).

(** [base], after [base += (variety - 1) * 5]. *)
Definition base (pw : pystr) : Z :=
  let entropy := estimate_entropy_bits pw in
  let base := Z.min 80 (int entropy) in
  base + (variety pw - 1) * 5.

(** The block of [if]s between [penalty = 0] and the score: the pair
    [(penalty, fb)] it leaves. *)
Definition penalties (pw : pystr) : Z * list string :=
  let length := Z.of_nat (length pw) in
  let '(penalty, fb) := (0, []) in
  let '(penalty, fb) :=
    if bool_decide (lower pw ∈ COMMON)
    then (penalty + 40, fb ++ ["Appears in common-password lists."]%string)
    else (penalty, fb) in
  let '(penalty, fb) :=
    if length <? 8
    then (penalty + 25,
          fb ++ ["Too short. Use at least 12–14 characters."]%string)
    else if length <? 12
    then (penalty + 10,
          fb ++ ["Longer is stronger: aim for 12–16+ characters."]%string)
    else (penalty, fb) in
  let '(penalty, fb) :=
    if _has_repeats pw
    then (penalty + 10,
          fb ++ ["Avoid repeated characters like 'aaa' or '1111'."]%string)
    else (penalty, fb) in
  let '(penalty, fb) :=
    if _has_sequence pw
    then (penalty + 10,
          fb ++ ["Avoid keyboard/alphabetical sequences."]%string)
    else (penalty, fb) in
  let fb :=
    if variety pw <=? 2
    then fb ++ ["Add upper/lowercase, digits and symbols for variety."]%string
    else fb in
  (penalty, fb).

(** The threshold ladder. *)
Definition rating_of (score : Z) : string :=
  if score <? 25 then "Very Weak"
  else if score <? 45 then "Weak"
  else if score <? 65 then "Fair"
  else if score <? 85 then "Strong"
  else "Excellent".

(** The two closing advices, appended once the rating is known. *)
Definition closing (rating : string) (length : Z) (fb : list string)
  : list string :=
  let fb :=
    if bool_decide (rating = "Very Weak" ∨ rating = "Weak")
    then fb ++ ["Consider a passphrase of 4–5 random words."]%string
    else fb in
  let fb :=
    if bool_decide (rating ≠ "Excellent"%string) && (length <? 16)
    then fb ++ ["Target 16+ characters for long-term safety."]%string
    else fb in
  fb.

(** One turn of the [# dedupe] loop on the state [(seen, tips)]. *)
Definition dedupe_step (st : gset string * list string) (t : string)
  : gset string * list string :=
  let '(seen, tips) := st in
  if bool_decide (t ∉ seen) then ({[t]} ∪ seen, tips ++ [t]) else st.

Definition dedupe (fb : list string) : list string :=
  (foldl dedupe_step (∅, []) fb).2.

(** The advisories in the order the code emits them, before the
    [# dedupe] loop (for the empty password, the literal list of the
    early return). *)
Definition collected (pw : pystr) : list string :=
  match pw with
  | [] => ["Password is empty."]%string
  | _ =>
      let '(penalty, fb) := penalties pw in
      let score := Z.max 0 (Z.min 100 (base pw - penalty)) in
      closing (rating_of score) (Z.of_nat (length pw)) fb
  end.

Definition rate_password (pw : pystr) : assessment :=
  match pw with
  | [] =>
      {| score := 0; rating := "Very Weak"; entropy := 0;
         feedback := ["Password is empty."]%string |}
  | _ =>
      let '(penalty, fb) := penalties pw in
      let score := Z.max 0 (Z.min 100 (base pw - penalty)) in
      let rating := rating_of score in
      let fb := closing rating (Z.of_nat (length pw)) fb in
      {| score := score; rating := rating;
         entropy := round1 (estimate_entropy_bits pw);
         feedback := dedupe fb |}
  end.
End Scorer.

(** What the specification asks of the deduplication: every entry is kept
    at its first occurrence, that is, position [i] survives exactly when
    its string does not occur at an earlier position. *)
Definition first_occurrences (fb : list string) : list string :=
  omap (λ i, t ← fb !! i;
             if bool_decide (t ∈ take i fb) then None else Some t)
       (seq 0 (length fb)).

(** The penalty for the length alone. *)
Definition length_penalty (length : Z) : Z :=
  if length <? 8 then 25 else if length <? 12 then 10 else 0.

(** ** Password generator *)

Definition string_ascii_lowercase : pystr := str "abcdefghijklmnopqrstuvwxyz".
Definition string_ascii_uppercase : pystr := str "ABCDEFGHIJKLMNOPQRSTUVWXYZ".
Definition string_digits : pystr := str "0123456789".
(** The literal of symbols, written twice in the source. *)
Definition symbol_chars : pystr := str "!@#$%^&*_-+=:?/~".

(** The set of the characters O 0 o I l 1 | ` ' ; : , . { } [ ] ( ) < >
    and the double quote (code point 34). *)
Definition AMBIGUOUS : gset N :=
  list_to_set (str "O0oIl1|`'" ++ [34%N] ++ str ";:,.{}[]()<>").

Definition build_charset (lower upper digits symbols no_amb : bool) : pystr :=
  let chars := [] in
  let chars := if lower then chars ++ string_ascii_lowercase else chars in
  let chars := if upper then chars ++ string_ascii_uppercase else chars in
  let chars := if digits then chars ++ string_digits else chars in
  let chars := if symbols then chars ++ symbol_chars else chars in
  let chars := if no_amb then filter (λ c, c ∉ AMBIGUOUS) chars else chars in
  chars.

(** *** Exceptions and the random source *)

Inductive exn :=
  | ValueError (msg : string)
  | IndexError (msg : string).

Inductive outcome (A : Type) :=
  | Returned (a : A)
  | Raised (e : exn).
Arguments Returned {A} a.
Arguments Raised {A} e.

(** A computation that may draw from the random source: from the number
    of tape entries consumed so far to an outcome and the new number. *)
Definition Rand (A : Type) : Type := nat → outcome A * nat.

Definition raise {A} (e : exn) : Rand A := λ k, (Raised e, k).

#[export] Instance rand_ret : MRet Rand := λ A a k, (Returned a, k).
#[export] Instance rand_bind : MBind Rand := λ A B f m k,
  match m k with
  | (Returned a, k') => f a k'
  | (Raised e, k') => (Raised e, k')
  end.

Section Generator.
(** The oracle: what the operating system's source yields, call by call. *)
Variable tape : nat → nat.

(** [secrets.randbelow(n)] *)
Definition randbelow (n : nat) : Rand nat :=
  λ k, match n with
       | O => (Raised (ValueError "Upper bound must be positive."), k)
       | S _ => (Returned (tape k mod n)%nat, S k)
       end.

(** [seq[i]] *)
Definition getitem (sq : pystr) (i : nat) : Rand N :=
  match sq !! i with
  | Some c => mret c
  | None => raise (IndexError "index out of range")
  end.

(** [seq[i] = c] on a list *)
Definition setitem (sq : pystr) (i : nat) (c : N) : Rand pystr :=
  if (i <? length sq)%nat then mret (<[i:=c]> sq)
  else raise (IndexError "list assignment index out of range").

(** [secrets.choice(seq)] *)
Definition choice (sq : pystr) : Rand N :=
  match sq with
  | [] => raise (IndexError "Cannot choose from an empty sequence")
  | _ => i ← randbelow (length sq) ; getitem sq i
  end.

(** [[m for _ in range(n)]] *)
Fixpoint comprehension {A} (n : nat) (m : Rand A) : Rand (list A) :=
  match n with
  | O => mret []
  | S n' => x ← m ; xs ← comprehension n' m ; mret (x :: xs)
  end.

(** [for pool in pools: idx = randbelow(len(pw)); pw[idx] = choice(pool)] *)
Fixpoint ensure_complexity (pools : list pystr) (pw : pystr) : Rand pystr :=
  match pools with
  | [] => mret pw
  | pool :: pools' =>
      idx ← randbelow (length pw);
      c ← choice pool;
      pw' ← setitem pw idx c;
      ensure_complexity pools' pw'
  end.

(** [x[i], x[j] = x[j], x[i]] *)
Definition swap (x : pystr) (i j : nat) : Rand pystr :=
  xj ← getitem x j;
  xi ← getitem x i;
  x1 ← setitem x i xj;
  setitem x1 j xi.

(** The loop of [random.shuffle] over the indices [idxs]. *)
Fixpoint shuffle_loop (idxs : list nat) (x : pystr) : Rand pystr :=
  match idxs with
  | [] => mret x
  | i :: idxs' =>
      j ← randbelow (i + 1);
      x' ← swap x i j;
      shuffle_loop idxs' x'
  end.

(** [SystemRandom().shuffle(x)]: [for i in reversed(range(1, len(x)))]. *)
Definition shuffle (x : pystr) : Rand pystr :=
  shuffle_loop (rev (seq 1 (length x - 1))) x.

(** The list [pools] built after the fill. *)
Definition class_pools (lower upper digits symbols : bool) : list pystr :=
  let pools := [] in
  let pools := if lower then pools ++ [string_ascii_lowercase] else pools in
  let pools := if upper then pools ++ [string_ascii_uppercase] else pools in
  let pools := if digits then pools ++ [string_digits] else pools in
  let pools := if symbols then pools ++ [symbol_chars] else pools in
  pools.

Definition generate_password
    (length : Z) (lower upper digits symbols no_amb : bool) : Rand pystr :=
  if negb (lower || upper || digits || symbols)
  then raise (ValueError "Enable at least one character set.")
  else if length <? Z.max 4 (b2z lower + b2z upper + b2z digits + b2z symbols)
  then raise (ValueError "Length too short for requested complexity.")
  else
    let charset := build_charset lower upper digits symbols no_amb in
    pw ← comprehension (Z.to_nat length) (choice charset);
    pw ← ensure_complexity (class_pools lower upper digits symbols) pw;
    pw ← shuffle pw;
    mret pw.
End Generator.

(** *** Vocabulary of the generator's properties *)

(** [m] never raises, whatever was drawn before, and what it returns
    satisfies [P]. *)
Definition returns {A} (m : Rand A) (P : A → Prop) : Prop :=
  ∀ k, ∃ a k', m k = (Returned a, k') ∧ P a.

(** [c] belongs to the pool of a class whose flag is set. *)
Definition in_selected (lower upper digits symbols : bool) (c : N) : Prop :=
  lower = true ∧ c ∈ string_ascii_lowercase ∨
  upper = true ∧ c ∈ string_ascii_uppercase ∨
  digits = true ∧ c ∈ string_digits ∨
  symbols = true ∧ c ∈ symbol_chars.

(** [GenerationParams] is valid: a class is enabled and the length
    reaches [max(4, number of enabled classes)]. *)
Definition valid_params (length : Z) (lower upper digits symbols : bool)
  : Prop :=
  lower || upper || digits || symbols = true ∧
  Z.max 4 (b2z lower + b2z upper + b2z digits + b2z symbols) ≤ length.

(** ** Further vocabulary *)

(** A database that knows the CJK unified ideographs (U+4E00 to U+9FFF)
    as Unicode does: letters, hence alphanumeric, with no case and no
    digit value, left alone by [str.lower]. *)
Definition cjk_ideographs : Unicode := {|
  uc_islower := λ _, false;
  uc_isupper := λ _, false;
  uc_isdigit := λ _, false;
  uc_isalnum := λ c, (0x4E00 <=? c)%N && (c <=? 0x9FFF)%N;
  uc_lower := λ s, s
|}.

(** [m] never raises, consumes exactly [n] entries of the tape, and what
    it returns satisfies [P]. *)
Definition draws {A} (m : Rand A) (n : nat) (P : A → Prop) : Prop :=
  ∀ k, ∃ a, m k = (Returned a, (k + n)%nat) ∧ P a.

(** How many characters of [pw] are on the denylist. *)
Definition ambiguous_count (pw : pystr) : nat :=
  length (filter (λ c, c ∈ AMBIGUOUS) pw).

(** What the overwrite loop can make of a buffer: for each pool in turn,
    one position of the buffer receives a character of that pool. *)
Inductive overwritten : list pystr → pystr → pystr → Prop :=
  | overwritten_nil pw : overwritten [] pw pw
  | overwritten_cons pool pools pw idx c pw' :
      (idx < length pw)%nat → c ∈ pool →
      overwritten pools (<[idx:=c]> pw) pw' →
      overwritten (pool :: pools) pw pw'.

(** The body of the Generate button: [out = []], then
    [for _ in range(how_many): out.append(generate_password(...))]. *)
Fixpoint generate_loop (tape : nat → nat) (how_many : nat)
    (length : Z) (lower upper digits symbols no_amb : bool)
    (out : list pystr) : Rand (list pystr) :=
  match how_many with
  | O => mret out
  | S how_many' =>
      p ← generate_password tape length lower upper digits symbols no_amb;
      generate_loop tape how_many' length lower upper digits symbols no_amb
                    (out ++ [p])
  end.

Definition generate_batch (tape : nat → nat) (how_many : nat)
    (length : Z) (lower upper digits symbols no_amb : bool)
  : Rand (list pystr) :=
  generate_loop tape how_many length lower upper digits symbols no_amb [].

(** * Properties of the strength scorer *)

(** For every size and every length up to 64 (from 25 characters on the
    product is above 80 for every size but 1, where it is 0), the integer
    part used by the score is the same computed in binary64 and computed
    exactly. *)
Lemma binary64_int_agrees :
  forallb (λ '(size, log2_size),
    forallb (λ n,
      binary64_int_capped 80 (PrimFloat.mul (binary64_of_nat n) log2_size)
      =? Z.min 80 (int {| bits_len := n; bits_size := size |}))
      (seq 0 65))
    binary64_log2 = true.
Proof. vm_compute. reflexivity. Qed.

Section ScorerProperties.
Context `{Unicode}.

Lemma b2z_range b : 0 ≤ b2z b ≤ 1.
Proof. destruct b; simpl; lia. Qed.

Lemma variety_range pw : 0 ≤ variety pw ≤ 4.
Proof.
  unfold variety.
  pose proof (b2z_range (_has_lower pw)).
  pose proof (b2z_range (_has_upper pw)).
  pose proof (b2z_range (_has_digit pw)).
  pose proof (b2z_range (_has_symbol pw)).
  lia.
Qed.

(** The sizes of the table [binary64_log2] are all there is. *)
Lemma charset_size_in_table pw : _charset_size pw ∈ binary64_log2.*1.
Proof.
  unfold _charset_size.
  destruct (_has_lower pw), (_has_upper pw), (_has_digit pw),
    (_has_symbol pw); apply list_elem_of_In; vm_compute; tauto.
Qed.

Lemma charset_size_pos pw : 1 ≤ _charset_size pw.
Proof. unfold _charset_size. lia. Qed.

Lemma int_nonneg x : 0 ≤ int x.
Proof. apply Z.log2_nonneg. Qed.

Lemma base_le_95 pw : base pw ≤ 95.
Proof. unfold base. pose proof (variety_range pw). lia. Qed.

Lemma penalties_nonneg pw : 0 ≤ (penalties pw).1.
Proof.
  unfold penalties.
  repeat match goal with
         | |- context [if ?b then _ else _] => destruct b
         end; simpl; lia.
Qed.

(** The score of a non-empty password, as the code computes it. *)
Lemma score_nonempty pw :
  pw ≠ [] →
  score (rate_password pw)
  = Z.max 0 (Z.min 100 (base pw - (penalties pw).1)).
Proof.
  destruct pw as [|c pw]; [done|]. intros _.
  unfold rate_password. by destruct (penalties (c :: pw)).
Qed.

Lemma rating_is_rating_of pw :
  rating (rate_password pw) = rating_of (score (rate_password pw)).
Proof.
  destruct pw as [|c pw]; [done|].
  unfold rate_password. by destruct (penalties (c :: pw)).
Qed.

Lemma score_range pw : 0 ≤ score (rate_password pw) ≤ 100.
Proof.
  destruct pw as [|c pw]; [done|].
  rewrite score_nonempty by done. lia.
Qed.

Lemma score_le_95 pw : score (rate_password pw) ≤ 95.
Proof.
  destruct pw as [|c pw]; [done|].
  rewrite score_nonempty by done.
  pose proof (base_le_95 (c :: pw)).
  pose proof (penalties_nonneg (c :: pw)). lia.
Qed.

Lemma rating_of_cases s :
  (s < 25 → rating_of s = "Very Weak"%string) ∧
  (25 ≤ s < 45 → rating_of s = "Weak"%string) ∧
  (45 ≤ s < 65 → rating_of s = "Fair"%string) ∧
  (65 ≤ s < 85 → rating_of s = "Strong"%string) ∧
  (85 ≤ s → rating_of s = "Excellent"%string).
Proof.
  unfold rating_of.
  repeat split; intros;
    repeat (case_match; try reflexivity; try lia).
Qed.

(** C4. For every string, the score lies in [0,100] and the rating is
    the bucket of the score: below 25 Very Weak, below 45 Weak, below 65
    Fair, below 85 Strong, Excellent otherwise. *)
Theorem rate_score_bounds_and_rating (s : pystr) :
  let r := rate_password s in
  0 ≤ score r ≤ 100 ∧
  (score r < 25 → rating r = "Very Weak"%string) ∧
  (25 ≤ score r < 45 → rating r = "Weak"%string) ∧
  (45 ≤ score r < 65 → rating r = "Fair"%string) ∧
  (65 ≤ score r < 85 → rating r = "Strong"%string) ∧
  (85 ≤ score r → rating r = "Excellent"%string).
Proof.
  intros r. split; [apply score_range|].
  unfold r. rewrite rating_is_rating_of. apply rating_of_cases.
Qed.

(** C5. The empty string yields the minimum assessment: score 0,
    rating Very Weak, entropy 0.0 and the single advisory
    "Password is empty." *)
Theorem rate_empty :
  rate_password [] =
  {| score := 0; rating := "Very Weak"; entropy := 0;
     feedback := ["Password is empty."]%string |}.
Proof. reflexivity. Qed.

(** C9. The score never exceeds 95: the base is at most 80 plus 15 and
    penalties only subtract, so the upper clamp at 100 is never the
    binding one, and Excellent means a score from 85 to 95. *)
Theorem rate_score_at_most_95 (s : pystr) :
  let r := rate_password s in
  score r ≤ 95 ∧
  Z.min 100 (base s - (penalties s).1) = base s - (penalties s).1 ∧
  (rating r = "Excellent"%string ↔ 85 ≤ score r ≤ 95).
Proof.
  intros r. pose proof (score_le_95 s) as Hle. fold r in Hle.
  split; [done|]. split.
  - pose proof (base_le_95 s). pose proof (penalties_nonneg s). lia.
  - unfold r in *. rewrite rating_is_rating_of.
    destruct (rating_of_cases (score (rate_password s)))
      as (H1 & H2 & H3 & H4 & H5).
    split.
    + intros He.
      destruct (Z.lt_ge_cases (score (rate_password s)) 85) as [Hlt|Hge];
        [|lia].
      exfalso.
      destruct (Z.lt_ge_cases (score (rate_password s)) 25);
        [rewrite H1 in He by lia; discriminate|].
      destruct (Z.lt_ge_cases (score (rate_password s)) 45);
        [rewrite H2 in He by lia; discriminate|].
      destruct (Z.lt_ge_cases (score (rate_password s)) 65);
        [rewrite H3 in He by lia; discriminate|].
      rewrite H4 in He by lia; discriminate.
    + intros [Hge _]. by apply H5.
Qed.

(** *** The [# dedupe] loop *)

Lemma omap_ext_in {A B} (f g : A → option B) (l : list A) :
  (∀ x, x ∈ l → f x = g x) → omap f l = omap g l.
Proof.
  induction l as [|x l IH]; intros Hfg; [done|].
  csimpl. rewrite (Hfg x) by left.
  rewrite IH; [done|]. intros y Hy. apply Hfg. by right.
Qed.

(** After the loop has gone through [fb], [seen] holds the strings of
    [fb]. *)
Lemma dedupe_seen fb t :
  t ∈ (foldl dedupe_step (∅, []) fb).1 ↔ t ∈ fb.
Proof.
  induction fb as [|u fb IH] using rev_ind.
  - simpl. set_solver.
  - rewrite foldl_snoc, elem_of_app, list_elem_of_singleton.
    destruct (foldl dedupe_step (∅, []) fb) as [seen tips] eqn:E.
    simpl in *. case_bool_decide as Hu; simpl.
    + rewrite elem_of_union, elem_of_singleton. tauto.
    + split; [tauto|]. intros [?| ->]; [tauto | done].
Qed.

(** One more turn of the loop appends the string unless it was met. *)
Lemma dedupe_snoc fb t :
  dedupe (fb ++ [t])
  = dedupe fb ++ (if bool_decide (t ∈ fb) then [] else [t]).
Proof.
  unfold dedupe. rewrite foldl_snoc.
  pose proof (dedupe_seen fb t) as Hseen.
  destruct (foldl dedupe_step (∅, []) fb) as [seen tips].
  simpl in *. repeat case_bool_decide; simpl;
    rewrite ?app_nil_r; tauto.
Qed.

Lemma first_occurrences_snoc fb t :
  first_occurrences (fb ++ [t])
  = first_occurrences fb ++ (if bool_decide (t ∈ fb) then [] else [t]).
Proof.
  unfold first_occurrences.
  rewrite length_app, seq_app, omap_app. simpl. f_equal.
  - apply omap_ext_in. intros i Hi.
    apply elem_of_seq in Hi.
    rewrite lookup_app_l by lia.
    destruct (fb !! i); [simpl|done].
    rewrite take_app_le by lia. done.
  - rewrite list_lookup_middle by done. simpl.
    rewrite take_app_length. by case_bool_decide.
Qed.

(** The loop computes the first occurrences. *)
Lemma dedupe_first_occurrences fb : dedupe fb = first_occurrences fb.
Proof.
  induction fb as [|t fb IH] using rev_ind; [done|].
  by rewrite dedupe_snoc, first_occurrences_snoc, IH.
Qed.

Lemma elem_of_dedupe fb t : t ∈ dedupe fb ↔ t ∈ fb.
Proof.
  induction fb as [|u fb IH] using rev_ind; [done|].
  rewrite dedupe_snoc, !elem_of_app, IH, list_elem_of_singleton.
  case_bool_decide; rewrite ?list_elem_of_singleton, ?elem_of_nil;
    [|tauto].
  split; [tauto|]. intros [?| ->]; tauto.
Qed.

Lemma NoDup_dedupe fb : NoDup (dedupe fb).
Proof.
  induction fb as [|u fb IH] using rev_ind; [constructor|].
  rewrite dedupe_snoc. case_bool_decide as Hu.
  - by rewrite app_nil_r.
  - apply NoDup_app. split; [done|]. split; [|apply NoDup_singleton].
    intros x Hx ->%list_elem_of_singleton.
    by apply Hu, elem_of_dedupe.
Qed.

Lemma feedback_is_dedupe pw :
  feedback (rate_password pw) = dedupe (collected pw).
Proof.
  destruct pw as [|c pw]; [done|].
  unfold rate_password, collected. by destruct (penalties (c :: pw)).
Qed.

(** C7. For every input the returned feedback has no duplicate, holds
    exactly the advisories that were emitted, and lists them in the
    order of their first insertion. *)
Theorem rate_feedback_distinct_in_order (s : pystr) :
  let tips := feedback (rate_password s) in
  NoDup tips ∧
  (∀ t, t ∈ tips ↔ t ∈ collected s) ∧
  tips = first_occurrences (collected s).
Proof.
  intros tips. unfold tips. rewrite feedback_is_dedupe.
  split; [apply NoDup_dedupe|].
  split; [intros t; apply elem_of_dedupe|].
  apply dedupe_first_occurrences.
Qed.

(** *** Length and score *)

Lemma int_mono (s : Z) (n m : nat) :
  1 ≤ s → (n ≤ m)%nat →
  int {| bits_len := n; bits_size := s |}
  ≤ int {| bits_len := m; bits_size := s |}.
Proof.
  intros Hs Hnm. unfold int. simpl.
  apply Z.log2_le_mono, Z.pow_le_mono_r; lia.
Qed.

Lemma length_penalty_antitone (a b : Z) :
  a ≤ b → length_penalty b ≤ length_penalty a.
Proof. unfold length_penalty. intros. repeat case_match; lia. Qed.

(** With no common-list, repeat or sequence trigger, the penalty is the
    one for the length. *)
Lemma penalties_length_only pw :
  lower pw ∉ COMMON → _has_repeats pw = false → _has_sequence pw = false →
  (penalties pw).1 = length_penalty (Z.of_nat (length pw)).
Proof.
  intros Hc Hr Hs. unfold penalties, length_penalty.
  rewrite (bool_decide_eq_false_2 _ Hc), Hr, Hs.
  repeat case_match; simplify_eq; simpl; lia.
Qed.

Lemma base_mono p q :
  p ≠ [] →
  _has_lower p = _has_lower q → _has_upper p = _has_upper q →
  _has_digit p = _has_digit q → _has_symbol p = _has_symbol q →
  (length p ≤ length q)%nat →
  base p ≤ base q.
Proof.
  intros Hp Hl Hu Hd Hy Hlen.
  assert (q ≠ []) as Hq.
  { intros ->. destruct p; simpl in *; [done | lia]. }
  assert (variety p = variety q) as Hv.
  { unfold variety. by rewrite Hl, Hu, Hd, Hy. }
  assert (_charset_size p = _charset_size q) as Hsz.
  { unfold _charset_size. by rewrite Hl, Hu, Hd, Hy. }
  unfold base. rewrite Hv.
  assert (int (estimate_entropy_bits p) ≤ int (estimate_entropy_bits q));
    [|lia].
  destruct p as [|a p]; [done|]. destruct q as [|b q]; [done|].
  unfold estimate_entropy_bits. rewrite Hsz.
  apply int_mono; [apply charset_size_pos | done].
Qed.

(** C6. Two passwords with the same character classes present, neither
    of which triggers the common-password, repeat or sequence penalty:
    the longer one scores at least as much as the shorter one. *)
Theorem rate_score_monotone_in_length (p q : pystr) :
  _has_lower p = _has_lower q → _has_upper p = _has_upper q →
  _has_digit p = _has_digit q → _has_symbol p = _has_symbol q →
  lower p ∉ COMMON → lower q ∉ COMMON →
  _has_repeats p = false → _has_repeats q = false →
  _has_sequence p = false → _has_sequence q = false →
  (length p < length q)%nat →
  score (rate_password p) ≤ score (rate_password q).
Proof.
  intros Hl Hu Hd Hy Hcp Hcq Hrp Hrq Hsp Hsq Hlen.
  destruct p as [|a p].
  { simpl. apply score_range. }
  assert (q ≠ []) as Hq by (destruct q; simpl in *; [lia | done]).
  rewrite !score_nonempty by done.
  rewrite !penalties_length_only by done.
  assert (base (a :: p) ≤ base q) as Hb
    by (apply base_mono; [done.. | lia]).
  assert (length_penalty (Z.of_nat (length q))
          ≤ length_penalty (Z.of_nat (length (a :: p)))) as Hp
    by (apply length_penalty_antitone; lia).
  lia.
Qed.

(** C10. The feedback can be empty for a non-empty password: a password
    of at least 16 characters with all four classes, outside the common
    list and with no repeat or sequence, gets no advisory at all. *)
Theorem rate_feedback_can_be_empty :
  ∃ pw : pystr,
    pw ≠ [] ∧ (16 ≤ length pw)%nat ∧
    _has_lower pw = true ∧ _has_upper pw = true ∧
    _has_digit pw = true ∧ _has_symbol pw = true ∧
    (lower pw ∉ COMMON) ∧
    _has_repeats pw = false ∧ _has_sequence pw = false ∧
    feedback (rate_password pw) = [].
Proof.
  exists (str "Tr0ub4dor&9xZp!Qm").
  split; [done|]. split; [vm_compute; lia|].
  do 4 (split; [vm_compute; reflexivity|]).
  split; [refine (proj1 (bool_decide_eq_false _) _); vm_compute; reflexivity|].
  repeat split; vm_compute; reflexivity.
Qed.
End ScorerProperties.

(** The monotonicity in length at work on two concrete passwords, five
    and seven characters long. *)
Lemma rate_score_monotone_in_length_witness :
  score (rate_password (H := ascii_only) (str "kx7m!"))
  ≤ score (rate_password (H := ascii_only) (str "kx7m!zq")).
Proof.
  apply (rate_score_monotone_in_length (H := ascii_only));
    try (vm_compute; reflexivity);
    try (refine (proj1 (bool_decide_eq_false _) _); vm_compute; reflexivity).
  vm_compute; lia.
Defined.

(** * Properties of the generator *)

Section GeneratorProperties.
Variable tape : nat → nat.

(** *** Rules for computations that do not raise *)

Lemma returns_ret {A} (a : A) (P : A → Prop) : P a → returns (mret a) P.
Proof. intros Pa k. by exists a, k. Qed.

Lemma returns_bind {A B} (m : Rand A) (f : A → Rand B)
    (P : A → Prop) (Q : B → Prop) :
  returns m P → (∀ a, P a → returns (f a) Q) → returns (m ≫= f) Q.
Proof.
  intros Hm Hf k.
  destruct (Hm k) as (a & k' & Em & Pa).
  destruct (Hf a Pa k') as (b & k'' & Ef & Qb).
  exists b, k''. split; [|done].
  unfold mbind, rand_bind. by rewrite Em.
Qed.

Lemma returns_weaken {A} (m : Rand A) (P Q : A → Prop) :
  returns m P → (∀ a, P a → Q a) → returns m Q.
Proof.
  intros Hm HPQ k. destruct (Hm k) as (a & k' & E & Pa).
  exists a, k'. auto.
Qed.

Lemma randbelow_returns n :
  (0 < n)%nat → returns (randbelow tape n) (λ i, (i < n)%nat).
Proof.
  intros Hn k. destruct n as [|n]; [lia|].
  exists (tape k mod S n)%nat, (S k). split; [done|].
  apply Nat.mod_upper_bound. lia.
Qed.

Lemma getitem_returns sq i :
  (i < length sq)%nat → returns (getitem sq i) (λ c, sq !! i = Some c).
Proof.
  intros Hi. unfold getitem.
  destruct (lookup_lt_is_Some_2 sq i Hi) as [c Hc]. rewrite Hc.
  by apply returns_ret.
Qed.

Lemma setitem_returns sq i c :
  (i < length sq)%nat → returns (setitem sq i c) (λ sq', sq' = <[i:=c]> sq).
Proof.
  intros Hi. unfold setitem.
  rewrite (proj2 (Nat.ltb_lt _ _) Hi). by apply returns_ret.
Qed.

Lemma choice_returns sq :
  sq ≠ [] → returns (choice tape sq) (λ c, c ∈ sq).
Proof.
  intros Hsq. destruct sq as [|a sq]; [done|]. unfold choice.
  eapply returns_bind; [apply randbelow_returns; simpl; lia|].
  intros i Hi. eapply returns_weaken; [apply getitem_returns, Hi|].
  intros c Hc. simpl in Hc. eapply list_elem_of_lookup_2, Hc.
Qed.

Lemma comprehension_returns {A} (m : Rand A) (P : A → Prop) n :
  returns m P →
  returns (comprehension n m) (λ l, length l = n ∧ Forall P l).
Proof.
  intros Hm. induction n as [|n IH]; simpl.
  - by apply returns_ret.
  - eapply returns_bind; [exact Hm|]. intros x Px.
    eapply returns_bind; [exact IH|]. intros xs [Hlen Hxs].
    apply returns_ret. simpl. auto.
Qed.

(** *** The pools *)

Lemma build_charset_nonempty lower upper digits symbols no_amb :
  lower || upper || digits || symbols = true →
  build_charset lower upper digits symbols no_amb ≠ [].
Proof.
  destruct lower, upper, digits, symbols, no_amb; intros Hany;
    try discriminate Hany; vm_compute; discriminate.
Qed.

Lemma build_charset_selected lower upper digits symbols no_amb c :
  c ∈ build_charset lower upper digits symbols no_amb →
  in_selected lower upper digits symbols c.
Proof.
  unfold build_charset, in_selected. intros Hc.
  destruct no_amb; [apply list_elem_of_filter in Hc as [_ Hc]|];
    destruct lower, upper, digits, symbols;
    cbv beta iota zeta in Hc;
    rewrite ?elem_of_app, ?elem_of_nil in Hc; tauto.
Qed.

(** What the filter of [build_charset] achieves. *)
Lemma build_charset_no_ambiguous lower upper digits symbols c :
  c ∈ build_charset lower upper digits symbols true → c ∉ AMBIGUOUS.
Proof.
  unfold build_charset. intros Hc.
  by apply list_elem_of_filter in Hc as [Hc _].
Qed.

Lemma class_pools_selected lower upper digits symbols :
  Forall (λ pool, pool ≠ [] ∧
                  Forall (in_selected lower upper digits symbols) pool)
         (class_pools lower upper digits symbols).
Proof.
  assert (∀ pool : pystr, pool ≠ [] →
            (∀ c, c ∈ pool → in_selected lower upper digits symbols c) →
            pool ≠ [] ∧
            Forall (in_selected lower upper digits symbols) pool) as Hpool.
  { intros pool Hne Hsel. split; [done|]. by apply Forall_forall. }
  unfold class_pools, in_selected in *.
  destruct lower, upper, digits, symbols; cbv beta iota zeta;
    rewrite ?app_nil_l; repeat apply Forall_app_2;
    try apply Forall_nil_2;
    apply Forall_singleton, Hpool; try discriminate; tauto.
Qed.

(** *** The overwrites and the shuffle

    Both keep the length of the buffer and any property [I] that holds
    of all the characters they can write. *)

Section Invariant.
Variable I : N → Prop.

Lemma ensure_complexity_returns pools pw :
  pw ≠ [] →
  Forall (λ pool, pool ≠ [] ∧ Forall I pool) pools →
  Forall I pw →
  returns (ensure_complexity tape pools pw)
          (λ pw', length pw' = length pw ∧ Forall I pw').
Proof.
  intros Hne Hpools. revert pw Hne.
  induction Hpools as [|pool pools [Hpool HI] _ IH]; intros pw Hne Hpw.
  - by apply returns_ret.
  - simpl.
    eapply returns_bind;
      [apply randbelow_returns; destruct pw; simpl; [done | lia]|].
    intros idx Hidx; simpl in Hidx.
    eapply returns_bind; [by apply choice_returns|].
    intros c Hc; simpl in Hc.
    eapply returns_bind; [by apply setitem_returns|].
    intros pw' ->.
    eapply returns_weaken.
    + apply IH.
      * intros E. apply (f_equal length) in E.
        rewrite length_insert in E. destruct pw; simpl in *; [done | lia].
      * apply Forall_insert; [done|].
        by apply (proj1 (Forall_forall _ _) HI).
    + intros pw'' [Hlen HI'']. by rewrite Hlen, length_insert.
Qed.

Lemma swap_returns x i j :
  (i < length x)%nat → (j < length x)%nat → Forall I x →
  returns (swap x i j) (λ x', length x' = length x ∧ Forall I x').
Proof.
  intros Hi Hj Hx. unfold swap.
  eapply returns_bind; [by apply getitem_returns|].
  intros xj Hxj; simpl in Hxj.
  eapply returns_bind; [by apply getitem_returns|].
  intros xi Hxi; simpl in Hxi.
  eapply returns_bind; [by apply setitem_returns|].
  intros x1 ->.
  eapply returns_weaken;
    [apply setitem_returns; by rewrite length_insert|].
  intros x2 ->. rewrite !length_insert. split; [done|].
  pose proof (proj1 (Forall_lookup _ _) Hx) as Hall.
  apply Forall_insert; [apply Forall_insert; [done|] |]; eauto.
Qed.

Lemma shuffle_loop_returns idxs x :
  Forall (λ i, (i < length x)%nat) idxs → Forall I x →
  returns (shuffle_loop tape idxs x)
          (λ x', length x' = length x ∧ Forall I x').
Proof.
  revert x. induction idxs as [|i idxs IH]; intros x Hidxs Hx.
  - by apply returns_ret.
  - apply Forall_cons in Hidxs as [Hi Hidxs]. simpl.
    eapply returns_bind; [apply randbelow_returns; lia|].
    intros j Hj; simpl in Hj.
    eapply returns_bind; [apply swap_returns; [done | lia | done]|].
    intros x' [Hlen Hx'].
    eapply returns_weaken.
    + apply IH; [by rewrite Hlen | done].
    + intros x'' [Hlen' Hx'']. split; [congruence | done].
Qed.

Lemma shuffle_returns x :
  Forall I x →
  returns (shuffle tape x) (λ x', length x' = length x ∧ Forall I x').
Proof.
  intros Hx. apply shuffle_loop_returns; [|done].
  apply Forall_forall. intros i Hi.
  apply list_elem_of_In, in_rev, list_elem_of_In, elem_of_seq in Hi. lia.
Qed.
End Invariant.

(** The whole generator on valid parameters. *)
Lemma generate_password_returns length lower upper digits symbols no_amb :
  valid_params length lower upper digits symbols →
  returns
    (generate_password tape length lower upper digits symbols no_amb)
    (λ pw, Z.of_nat (List.length pw) = length ∧
           Forall (in_selected lower upper digits symbols) pw).
Proof.
  intros [Hany Hlen]. unfold generate_password.
  rewrite Hany. simpl negb. cbv iota.
  rewrite (proj2 (Z.ltb_ge _ _) Hlen).
  eapply returns_bind.
  { apply comprehension_returns, choice_returns.
    by apply build_charset_nonempty. }
  intros pw [Hpw Hsel].
  eapply returns_bind.
  { apply (ensure_complexity_returns
             (in_selected lower upper digits symbols)).
    - intros ->. simpl in Hpw. lia.
    - apply class_pools_selected.
    - eapply Forall_impl; [exact Hsel|].
      intros c. apply build_charset_selected. }
  intros pw' [Hpw' Hsel'].
  eapply returns_bind; [by apply shuffle_returns|].
  intros pw'' [Hpw'' Hsel'']. apply returns_ret.
  split; [|done]. rewrite Hpw'', Hpw', Hpw. lia.
Qed.

(** C3. On valid parameters [generate_password] returns a string of
    exactly [length] characters, each from the pool of a class whose
    flag is set (lowercase letters, uppercase letters, digits, the
    symbols of the generator). *)
Theorem generate_password_length_and_classes
    (length : Z) (lower upper digits symbols no_amb : bool) (k : nat) :
  valid_params length lower upper digits symbols →
  ∃ pw k',
    generate_password tape length lower upper digits symbols no_amb k
    = (Returned pw, k') ∧
    Z.of_nat (List.length pw) = length ∧
    ∀ c, c ∈ pw → in_selected lower upper digits symbols c.
Proof.
  intros Hvalid.
  destruct (generate_password_returns length lower upper digits symbols
              no_amb Hvalid k) as (pw & k' & E & Hlen & Hsel).
  exists pw, k'. split; [done|]. split; [done|].
  by apply Forall_forall.
Qed.

(** C2. [generate_password] raises exactly when no class flag is set or
    the length is below [max(4, number of flags set)]; the exception is
    then the [ValueError] of the validation, raised with no character
    drawn and nothing returned; on all other parameters it returns. *)
Theorem generate_password_raises_iff_invalid
    (length : Z) (lower upper digits symbols no_amb : bool) (k : nat) :
  let invalid :=
    lower || upper || digits || symbols = false ∨
    length < Z.max 4 (b2z lower + b2z upper + b2z digits + b2z symbols) in
  let run :=
    generate_password tape length lower upper digits symbols no_amb k in
  ((∃ e, run.1 = Raised e) ↔ invalid) ∧
  (invalid → ∃ msg, run = (Raised (ValueError msg), k)) ∧
  (¬ invalid → ∃ pw k', run = (Returned pw, k')).
Proof.
  intros invalid run.
  assert (invalid → ∃ msg, run = (Raised (ValueError msg), k)) as Hraise.
  { unfold invalid, run, generate_password. intros [Hnone | Hshort].
    - rewrite Hnone. simpl. eauto.
    - destruct (negb _); [simpl; eauto|].
      rewrite (proj2 (Z.ltb_lt _ _) Hshort). simpl. eauto. }
  assert (¬ invalid → ∃ pw k', run = (Returned pw, k')) as Hreturn.
  { intros Hok.
    assert (valid_params length lower upper digits symbols) as Hvalid.
    { unfold invalid in Hok. split; [|lia].
      destruct (lower || upper || digits || symbols); tauto. }
    destruct (generate_password_returns length lower upper digits symbols
                no_amb Hvalid k) as (pw & k' & E & _).
    by exists pw, k'. }
  split; [|done]. split.
  - intros [e He].
    destruct (decide (lower || upper || digits || symbols = false))
      as [?|Hany]; [by left|].
    destruct (Z.lt_ge_cases length
                (Z.max 4 (b2z lower + b2z upper + b2z digits + b2z symbols)))
      as [?|Hlen]; [by right|].
    destruct Hreturn as (pw & k' & E);
      [unfold invalid; intros [?|?]; [done | lia]|].
    rewrite E in He. discriminate.
  - intros Hinv. destruct (Hraise Hinv) as [msg E].
    exists (ValueError msg). by rewrite E.
Qed.

(** C8. On valid parameters the character pool is not empty, with or
    without the ambiguous characters, so neither a single selection
    from it nor the fill step raises. *)
Theorem build_charset_nonempty_when_valid
    (length : Z) (lower upper digits symbols no_amb : bool) (k : nat) :
  valid_params length lower upper digits symbols →
  let charset := build_charset lower upper digits symbols no_amb in
  charset ≠ [] ∧
  (∃ c k', choice tape charset k = (Returned c, k') ∧ c ∈ charset) ∧
  (∃ pw k', comprehension (Z.to_nat length) (choice tape charset) k
            = (Returned pw, k')).
Proof.
  intros [Hany _] charset.
  assert (charset ≠ []) as Hne by by apply build_charset_nonempty.
  split; [done|]. split.
  - destruct (choice_returns charset Hne k) as (c & k' & E & Hc). eauto.
  - destruct (comprehension_returns (choice tape charset) _
                (Z.to_nat length) (choice_returns charset Hne) k)
      as (pw & k' & E & _).
    eauto.
Qed.
End GeneratorProperties.

(** C1. With the ambiguous characters excluded, the overwrite step still
    draws from the unfiltered class pools: on a tape that always yields
    11, four lowercase characters are asked for and the result ends with
    the letter l (code point 108), which is on the denylist. *)
Theorem generate_password_emits_ambiguous :
  generate_password (λ _, 11%nat) 4 true false false false true 0%nat
  = (Returned (str "mmml"), 9%nat) ∧
  108%N ∈ str "mmml" ∧ 108%N ∈ AMBIGUOUS.
Proof.
  split; [vm_compute; reflexivity|]. split.
  - apply list_elem_of_In. vm_compute. tauto.
  - refine (bool_decide_unpack _ _). vm_compute. exact I.
Qed.

(** Four lowercase characters on the tape that always yields 11. *)
Lemma generate_password_length_and_classes_witness :
  ∃ pw k',
    generate_password (λ _, 11%nat) 4 true false false false false 0%nat
    = (Returned pw, k') ∧
    Z.of_nat (List.length pw) = 4 ∧
    ∀ c, c ∈ pw → in_selected true false false false c.
Proof.
  apply generate_password_length_and_classes.
  split; [reflexivity | simpl; lia].
Defined.

(** The pool of all four classes without the ambiguous characters. *)
Lemma build_charset_nonempty_when_valid_witness :
  build_charset true true true true true ≠ [].
Proof.
  apply (build_charset_nonempty_when_valid (λ _, 0%nat) 16 true true true
           true true 0%nat).
  split; [reflexivity | simpl; lia].
Defined.

(** * Further properties of the strength scorer *)

(** *** Substrings *)

Lemma startswith_spec (s chunk : pystr) :
  startswith s chunk = true ↔ ∃ l2, s = chunk ++ l2.
Proof.
  revert s. induction chunk as [|a chunk IH]; intros s.
  - destruct s; simpl; split; eauto.
  - destruct s as [|b s]; simpl.
    + split; [done | intros [l2 E]; discriminate E].
    + rewrite andb_true_iff, N.eqb_eq, IH. split.
      * intros [-> [l2 ->]]. eauto.
      * intros [l2 E]. injection E as -> ->. eauto.
Qed.

Lemma contains_spec (s chunk : pystr) :
  contains s chunk = true ↔ ∃ l1 l2, s = l1 ++ chunk ++ l2.
Proof.
  induction s as [|b s IH].
  - cbn [contains]. rewrite orb_false_r, startswith_spec. split.
    + intros [l2 E]. by exists [], l2.
    + intros (l1 & l2 & E). symmetry in E.
      apply app_eq_nil in E as [-> E]. eauto.
  - cbn [contains]. rewrite orb_true_iff, startswith_spec, IH. split.
    + intros [[l2 E] | (l1 & l2 & E)].
      * by exists [], l2.
      * exists (b :: l1), l2. by rewrite E.
    + intros (l1 & l2 & E). destruct l1 as [|a l1].
      * left. eauto.
      * right. injection E as -> ->. eauto.
Qed.

Lemma contains_rev (s chunk : pystr) :
  contains (rev s) (rev chunk) = contains s chunk.
Proof.
  apply eq_true_iff_eq. rewrite !contains_spec. split.
  - intros (l1 & l2 & E). exists (rev l2), (rev l1).
    apply (f_equal (@rev N)) in E.
    by rewrite rev_involutive, !rev_app_distr, rev_involutive,
      <-(assoc_L (++)) in E.
  - intros (l1 & l2 & ->). exists (rev l2), (rev l1).
    by rewrite !rev_app_distr, <-(assoc_L (++)).
Qed.

Lemma contains_extend (p s q chunk : pystr) :
  contains s chunk = true → contains (p ++ s ++ q) chunk = true.
Proof.
  rewrite !contains_spec. intros (l1 & l2 & ->).
  exists (p ++ l1), (l2 ++ q). by rewrite <-!(assoc_L (++)).
Qed.

Lemma contains_length (s chunk : pystr) :
  contains s chunk = true → (length chunk ≤ length s)%nat.
Proof.
  rewrite contains_spec. intros (l1 & l2 & ->). rewrite !length_app. lia.
Qed.

(** *** ASCII strings *)

Lemma lower_ascii `{Unicode} (s : pystr) :
  forallb is_ascii s = true → lower s = map ascii_lower s.
Proof. unfold lower. by intros ->. Qed.

Lemma lower_length `{Unicode} (s : pystr) :
  forallb is_ascii s = true → length (lower s) = length s.
Proof. intros Hs. by rewrite lower_ascii, length_map. Qed.

Lemma lower_rev `{Unicode} (s : pystr) :
  forallb is_ascii s = true → lower (rev s) = rev (lower s).
Proof.
  intros Hs. rewrite (lower_ascii s Hs), lower_ascii, map_rev; [done|].
  apply forallb_forall. intros c Hc%in_rev.
  by apply (proj1 (forallb_forall _ _) Hs).
Qed.

Lemma lower_app `{Unicode} (s t : pystr) :
  forallb is_ascii s = true → forallb is_ascii t = true →
  lower (s ++ t) = lower s ++ lower t.
Proof.
  intros Hs Ht.
  rewrite (lower_ascii s Hs), (lower_ascii t Ht), lower_ascii, map_app;
    [done|].
  by rewrite forallb_app, Hs, Ht.
Qed.

Lemma existsb_ext {A} (f g : A → bool) (l : list A) :
  (∀ x, f x = g x) → existsb f l = existsb g l.
Proof. intros Hfg. induction l as [|x l IH]; simpl; congruence. Qed.

Lemma existsb_false {A} (f : A → bool) (l : list A) :
  Forall (λ x, f x = false) l → existsb f l = false.
Proof. induction 1 as [|x l Hx _ IH]; simpl; [done|]. by rewrite Hx, IH. Qed.

Lemma existsb_elem_of {A} (f : A → bool) (l : list A) (x : A) :
  x ∈ l → f x = true → existsb f l = true.
Proof.
  intros Hx%list_elem_of_In Hf. apply existsb_exists. eauto.
Qed.

(** The slices of [windows] have the length of the window. *)
Lemma windows_length (window : nat) (sq chunk : pystr) :
  In chunk (windows window sq) → length chunk = window.
Proof.
  unfold windows. intros (i & <- & Hi%in_seq)%in_map_iff.
  rewrite length_take, length_drop. lia.
Qed.

Section ScorerExtras.
Context `{Unicode}.

(** *** Repeats and sequences *)

Lemma run_of_2 (c : N) (s : pystr) :
  run_of c 2 s = true ↔ s !! 0%nat = Some c ∧ s !! 1%nat = Some c.
Proof.
  destruct s as [|x [|y s]]; simpl.
  - split; [done | by intros [E _]].
  - rewrite andb_false_r. split; [done | by intros [_ E]].
  - rewrite andb_true_r, andb_true_iff, !N.eqb_eq.
    split; [by intros [-> ->] | intros [E1 E2]; by simplify_eq].
Qed.

Lemma search_repeats_spec (s : pystr) :
  search_repeats 3 s = true ↔
  ∃ (i : nat) (c : N),
    c ≠ 10%N ∧ s !! i = Some c ∧ s !! S i = Some c ∧ s !! S (S i) = Some c.
Proof.
  induction s as [|a s IH].
  - simpl. split; [done | intros (i & c & _ & E & _); discriminate E].
  - cbn [search_repeats]. change (3 - 1)%nat with 2%nat.
    rewrite orb_true_iff, andb_true_iff, negb_true_iff, N.eqb_neq,
      run_of_2, IH.
    split.
    + intros [(Ha & H0 & H1) | (i & c & Hc & H0 & H1 & H2)].
      * by exists 0%nat, a.
      * by exists (S i), c.
    + intros (i & c & Hc & H0 & H1 & H2). destruct i as [|i].
      * left. by simplify_eq/=.
      * right. by exists i, c.
Qed.

(** X1. [_has_repeats] answers true exactly when some character other
    than the newline stands at three consecutive positions. *)
Theorem has_repeats_iff_three_in_a_row (s : pystr) :
  _has_repeats s = true ↔
  ∃ (i : nat) (c : N),
    c ≠ 10%N ∧ s !! i = Some c ∧ s !! S i = Some c ∧ s !! S (S i) = Some c.
Proof. apply search_repeats_spec. Qed.

(** X2. A repeat is never lost by adding characters in front of or
    behind the password. *)
Theorem has_repeats_extend (p s q : pystr) :
  _has_repeats s = true → _has_repeats (p ++ s ++ q) = true.
Proof.
  unfold _has_repeats. rewrite !search_repeats_spec.
  intros (i & c & Hc & H0 & H1 & H2).
  exists (length p + i)%nat, c. split; [done|].
  assert (∀ j, s !! j = Some c →
               (p ++ s ++ q) !! (length p + j)%nat = Some c) as Hlook.
  { intros j Hj. rewrite lookup_app_r by lia.
    replace (length p + j - length p)%nat with j by lia.
    by apply lookup_app_l_Some. }
  rewrite <-!Nat.add_succ_r. auto.
Qed.

(** X3. On ASCII passwords the sequence check does not depend on the
    direction of reading: the reversed password is flagged exactly when
    the password is. *)
Theorem has_sequence_rev (s : pystr) :
  forallb is_ascii s = true → _has_sequence (rev s) = _has_sequence s.
Proof.
  intros Hs. unfold _has_sequence. rewrite lower_rev by done.
  apply existsb_ext. intros sq. apply existsb_ext. intros chunk.
  rewrite contains_rev.
  rewrite <-(rev_involutive chunk) at 1. rewrite contains_rev.
  apply orb_comm.
Qed.

(** X4. A sequence found in an ASCII password is still found when ASCII
    characters are added in front of or behind it. *)
Theorem has_sequence_extend (p s q : pystr) :
  forallb is_ascii p = true → forallb is_ascii s = true →
  forallb is_ascii q = true →
  _has_sequence s = true → _has_sequence (p ++ s ++ q) = true.
Proof.
  intros Hp Hs Hq. unfold _has_sequence.
  rewrite !lower_app by (by rewrite ?forallb_app, ?Hs, ?Hq).
  rewrite !existsb_exists. intros (sq & Hsq & Hin). exists sq.
  split; [done|]. revert Hin. rewrite !existsb_exists.
  intros (chunk & Hchunk & Hin). exists chunk. split; [done|].
  apply orb_true_iff in Hin. apply orb_true_iff.
  destruct Hin; [left | right]; by apply contains_extend.
Qed.

(** X5. Too short to hold a pattern: fewer than three characters never
    count as a repeat, fewer than four ASCII characters never count as a
    sequence. *)
Theorem short_password_has_no_pattern (s : pystr) :
  ((length s < 3)%nat → _has_repeats s = false) ∧
  (forallb is_ascii s = true → (length s < 4)%nat →
   _has_sequence s = false).
Proof.
  split.
  - intros Hlen. apply not_true_is_false.
    intros (i & c & _ & _ & _ & H2%lookup_lt_Some)%search_repeats_spec.
    lia.
  - intros Hs Hlen. apply not_true_is_false. unfold _has_sequence.
    rewrite existsb_exists. intros (sq & _ & Hin).
    apply existsb_exists in Hin as (chunk & Hchunk%windows_length & Hin).
    assert (length chunk ≤ length (lower s))%nat as Hle.
    { apply orb_true_iff in Hin as [Hin | Hin];
        apply contains_length in Hin; by rewrite ?length_rev in Hin. }
    rewrite lower_length in Hle by done. lia.
Qed.
End ScorerExtras.

(** Three x in a row inside a longer password. *)
Lemma has_repeats_extend_witness :
  _has_repeats (str "ab" ++ str "xxx" ++ str "9") = true.
Proof. apply has_repeats_extend. reflexivity. Defined.

Lemma has_sequence_rev_witness :
  _has_sequence (H := ascii_only) (rev (str "my4321pw"))
  = _has_sequence (H := ascii_only) (str "my4321pw").
Proof. apply has_sequence_rev. reflexivity. Defined.

Lemma has_sequence_extend_witness :
  _has_sequence (H := ascii_only) (str "Zq" ++ str "qwer" ++ str "!7")
  = true.
Proof. apply has_sequence_extend; reflexivity. Defined.

(** * Further properties of the score and the feedback *)

Lemma int_mono2 (s1 s2 : Z) (n1 n2 : nat) :
  1 ≤ s1 ≤ s2 → (n1 ≤ n2)%nat →
  int {| bits_len := n1; bits_size := s1 |}
  ≤ int {| bits_len := n2; bits_size := s2 |}.
Proof.
  intros Hs Hn. unfold int. simpl.
  apply Z.log2_le_mono, Z.pow_le_mono; lia.
Qed.

Lemma rating_of_below_45 (s : Z) :
  bool_decide (rating_of s = "Very Weak"%string ∨ rating_of s = "Weak"%string)
  = (s <? 45).
Proof.
  unfold rating_of.
  destruct (Z.ltb_spec s 25), (Z.ltb_spec s 45), (Z.ltb_spec s 65),
    (Z.ltb_spec s 85); try lia; reflexivity.
Qed.

Lemma rating_of_below_85 (s : Z) :
  bool_decide (rating_of s ≠ "Excellent"%string) = (s <? 85).
Proof.
  unfold rating_of.
  destruct (Z.ltb_spec s 25), (Z.ltb_spec s 45), (Z.ltb_spec s 65),
    (Z.ltb_spec s 85); try lia; reflexivity.
Qed.

Section ScoreExtras.
Context `{Unicode}.

Lemma charset_size_le_95 pw : _charset_size pw ≤ 95.
Proof.
  unfold _charset_size.
  destruct (_has_lower pw), (_has_upper pw), (_has_digit pw),
    (_has_symbol pw); lia.
Qed.

(** The integer part of the entropy of a password of at most [n]
    characters. *)
Lemma int_entropy_le pw (n : nat) :
  (length pw ≤ n)%nat →
  int (estimate_entropy_bits pw)
  ≤ int {| bits_len := n; bits_size := 95 |}.
Proof.
  intros Hn. destruct pw as [|c pw].
  - apply int_nonneg.
  - unfold estimate_entropy_bits. apply int_mono2; [|done].
    pose proof (charset_size_pos (c :: pw)).
    pose proof (charset_size_le_95 (c :: pw)). lia.
Qed.

(** The penalty is the sum of the four independent parts. *)
Lemma penalties_total pw :
  (penalties pw).1
  = (if bool_decide (lower pw ∈ COMMON) then 40 else 0)
    + length_penalty (Z.of_nat (length pw))
    + (if _has_repeats pw then 10 else 0)
    + (if _has_sequence pw then 10 else 0).
Proof.
  unfold penalties, length_penalty.
  destruct (bool_decide (lower pw ∈ COMMON)), (_has_repeats pw),
    (_has_sequence pw), (Z.of_nat (length pw) <? 8),
    (Z.of_nat (length pw) <? 12); reflexivity.
Qed.

(** The advisories a non-empty password collects, one optional entry per
    test, in the order of the tests. *)
Lemma collected_eq pw :
  pw ≠ [] →
  let len := Z.of_nat (length pw) in
  let sc := score (rate_password pw) in
  collected pw
  = (if bool_decide (lower pw ∈ COMMON)
     then ["Appears in common-password lists."]%string else [])
    ++ (if len <? 8 then ["Too short. Use at least 12–14 characters."]%string
        else if len <? 12
        then ["Longer is stronger: aim for 12–16+ characters."]%string
        else [])
    ++ (if _has_repeats pw
        then ["Avoid repeated characters like 'aaa' or '1111'."]%string else [])
    ++ (if _has_sequence pw
        then ["Avoid keyboard/alphabetical sequences."]%string else [])
    ++ (if variety pw <=? 2
        then ["Add upper/lowercase, digits and symbols for variety."]%string
        else [])
    ++ (if sc <? 45
        then ["Consider a passphrase of 4–5 random words."]%string else [])
    ++ (if (sc <? 85) && (len <? 16)
        then ["Target 16+ characters for long-term safety."]%string else []).
Proof.
  intros Hne len sc. unfold sc. rewrite score_nonempty by done.
  destruct pw as [|c pw]; [done|]. unfold collected.
  generalize (base (c :: pw)). intros b.
  unfold penalties. fold len.
  destruct (bool_decide (lower (c :: pw) ∈ COMMON)), (len <? 8),
    (len <? 12), (_has_repeats (c :: pw)), (_has_sequence (c :: pw)),
    (variety (c :: pw) <=? 2);
    cbv beta iota zeta; unfold closing;
    rewrite rating_of_below_45, rating_of_below_85; cbn [fst];
    repeat match goal with
           | |- context [if ?b then _ else _] => destruct b
           end; reflexivity.
Qed.
End ScoreExtras.

Lemma rating_of_excellent (s : Z) :
  rating_of s = "Excellent"%string → 85 ≤ s.
Proof.
  unfold rating_of.
  destruct (Z.ltb_spec s 25), (Z.ltb_spec s 45), (Z.ltb_spec s 65),
    (Z.ltb_spec s 85); intros E; try discriminate E; lia.
Qed.

(** The entries of [COMMON] are short and not empty. *)
Lemma common_entry (x : pystr) :
  x ∈ COMMON → (length x ≤ 9)%nat ∧ x ≠ [].
Proof.
  unfold COMMON. rewrite elem_of_list_to_set. revert x.
  apply Forall_forall.
  repeat (apply Forall_cons; split;
          [split; [vm_compute; lia | discriminate]|]).
  apply Forall_nil_2.
Qed.

(** The loop leaves a list without duplicates as it is. *)
Lemma dedupe_NoDup_id (fb : list string) : NoDup fb → dedupe fb = fb.
Proof.
  induction fb as [|t fb IH] using rev_ind; [done|].
  intros (Hfb & Ht & _)%NoDup_app. rewrite dedupe_snoc, IH by done.
  rewrite bool_decide_eq_false_2; [done|].
  intros Hin. apply (Ht t Hin). by apply list_elem_of_singleton.
Qed.

Section ScoreTheorems.
Context `{Unicode}.

Lemma ascii_char_classified (c : N) :
  is_ascii c = true →
  islower c || isupper c || isdigit c || negb (isalnum c) = true.
Proof.
  unfold islower, isupper, isdigit, isalnum. intros ->.
  by destruct (ascii_islower c), (ascii_isupper c), (ascii_isdigit c).
Qed.

(** X6. A password with at least one ASCII character always shows a
    character class: its variety is at least 1 and its charset size at
    least 10, so the floor of 1 in [_charset_size] is not what it gets. *)
Theorem ascii_password_has_a_class (pw : pystr) (c : N) :
  c ∈ pw → is_ascii c = true →
  1 ≤ variety pw ∧ 10 ≤ _charset_size pw.
Proof.
  intros Hc Ha.
  assert (_has_lower pw || _has_upper pw || _has_digit pw
          || _has_symbol pw = true) as Hany.
  { pose proof (ascii_char_classified c Ha) as Hcl.
    rewrite !orb_true_iff in *.
    destruct Hcl as [[[?|?]|?]|?];
      [left; left; left | left; left; right | left; right | right];
      by eapply existsb_elem_of. }
  unfold variety, _charset_size.
  destruct (_has_lower pw), (_has_upper pw), (_has_digit pw),
    (_has_symbol pw); simpl in *; try done; lia.
Qed.

(** X7. A non-empty password made only of characters that are
    alphanumeric but neither lowercase, uppercase nor digit (letters
    without case) shows no class at all: whatever its length, its score is
    0, its rating Very Weak and its entropy 0.0. *)
Theorem caseless_letters_score_zero (pw : pystr) :
  pw ≠ [] →
  Forall (λ c, isalnum c = true ∧ islower c = false ∧
               isupper c = false ∧ isdigit c = false) pw →
  let r := rate_password pw in
  score r = 0 ∧ rating r = "Very Weak"%string ∧ entropy r = 0.
Proof.
  intros Hne Hall r.
  assert (_has_lower pw = false) as Hl.
  { apply existsb_false. eapply Forall_impl; [exact Hall|].
    by intros c (_ & Hc & _). }
  assert (_has_upper pw = false) as Hu.
  { apply existsb_false. eapply Forall_impl; [exact Hall|].
    by intros c (_ & _ & Hc & _). }
  assert (_has_digit pw = false) as Hd.
  { apply existsb_false. eapply Forall_impl; [exact Hall|].
    by intros c (_ & _ & _ & Hc). }
  assert (_has_symbol pw = false) as Hy.
  { apply existsb_false. eapply Forall_impl; [exact Hall|].
    intros c (-> & _). done. }
  assert (_charset_size pw = 1) as Hsz.
  { unfold _charset_size. by rewrite Hl, Hu, Hd, Hy. }
  assert (base pw = -5) as Hb.
  { unfold base, variety. rewrite Hl, Hu, Hd, Hy.
    destruct pw as [|c pw]; [done|].
    unfold estimate_entropy_bits, int. cbn [bits_len bits_size].
    rewrite Hsz, Z.pow_1_l by lia. reflexivity. }
  assert (score r = 0) as Hs.
  { unfold r. rewrite score_nonempty, Hb by done.
    pose proof (penalties_nonneg pw). lia. }
  split; [done|]. split.
  - unfold r in *. by rewrite rating_is_rating_of, Hs.
  - unfold r. destruct pw as [|c pw]; [done|].
    unfold rate_password. destruct (penalties (c :: pw)).
    cbn [entropy]. unfold estimate_entropy_bits, round1.
    cbn [bits_len bits_size].
    rewrite Hsz, Z.pow_1_l by lia. reflexivity.
Qed.

(** X8. An ASCII password that is on the common list, in any mix of
    upper and lower case, scores below 25, is rated Very Weak and is told
    so in the feedback. *)
Theorem common_password_very_weak (pw : pystr) :
  forallb is_ascii pw = true → lower pw ∈ COMMON →
  let r := rate_password pw in
  score r < 25 ∧ rating r = "Very Weak"%string ∧
  "Appears in common-password lists."%string ∈ feedback r.
Proof.
  intros Ha Hc r.
  destruct (common_entry _ Hc) as [Hlen Hne].
  rewrite lower_length in Hlen by done.
  assert (pw ≠ []) as Hpw.
  { intros ->. apply Hne. by rewrite lower_ascii. }
  assert (score r < 25) as Hs.
  { unfold r. rewrite score_nonempty, penalties_total by done.
    rewrite (bool_decide_eq_true_2 _ Hc).
    pose proof (int_entropy_le pw 9 Hlen) as Hint.
    change (int {| bits_len := 9; bits_size := 95 |}) with 59 in Hint.
    pose proof (variety_range pw).
    assert (10 ≤ length_penalty (Z.of_nat (length pw))).
    { unfold length_penalty. repeat case_match; lia. }
    unfold base.
    destruct (_has_repeats pw), (_has_sequence pw); lia. }
  split; [done|]. split.
  - unfold r in *. rewrite rating_is_rating_of.
    by apply rating_of_cases.
  - unfold r. rewrite feedback_is_dedupe, elem_of_dedupe.
    rewrite collected_eq by done.
    rewrite (bool_decide_eq_true_2 _ Hc). by left.
Qed.

(** X9. A password of fewer than eight characters never scores above 35
    and is rated Very Weak or Weak. *)
Theorem short_password_at_most_weak (pw : pystr) :
  (length pw < 8)%nat →
  let r := rate_password pw in
  score r ≤ 35 ∧ (rating r = "Very Weak"%string ∨ rating r = "Weak"%string).
Proof.
  intros Hlen r.
  assert (0 ≤ score r ≤ 35) as Hs.
  { unfold r. destruct pw as [|c pw]; [done|].
    rewrite score_nonempty, penalties_total by done.
    pose proof (int_entropy_le (c :: pw) 7 ltac:(lia)) as Hint.
    change (int {| bits_len := 7; bits_size := 95 |}) with 45 in Hint.
    pose proof (variety_range (c :: pw)).
    assert (length_penalty (Z.of_nat (length (c :: pw))) = 25).
    { unfold length_penalty. repeat case_match; lia. }
    unfold base.
    destruct (bool_decide _), (_has_repeats _), (_has_sequence _); lia. }
  split; [lia|]. unfold r in *. rewrite rating_is_rating_of.
  destruct (rating_of_cases (score (rate_password pw))) as (H1 & H2 & _).
  destruct (Z.lt_ge_cases (score (rate_password pw)) 25);
    [left; apply H1 | right; apply H2]; lia.
Qed.

(** X10. The rating Excellent is only given to a password of at least
    twelve characters, with at least two character classes, that is not
    on the common list. *)
Theorem excellent_needs (pw : pystr) :
  rating (rate_password pw) = "Excellent"%string →
  (12 ≤ length pw)%nat ∧ 2 ≤ variety pw ∧ lower pw ∉ COMMON.
Proof.
  rewrite rating_is_rating_of. intros Hs%rating_of_excellent.
  destruct pw as [|c pw]; [simpl in Hs; lia|].
  rewrite score_nonempty, penalties_total in Hs by done.
  pose proof (variety_range (c :: pw)).
  unfold base in Hs.
  assert (0 ≤ length_penalty (Z.of_nat (length (c :: pw)))).
  { unfold length_penalty. repeat case_match; lia. }
  split; [|split].
  - destruct (decide (12 ≤ length (c :: pw))%nat) as [|Hshort]; [done|].
    exfalso.
    pose proof (int_entropy_le (c :: pw) 11 ltac:(lia)) as Hint.
    change (int {| bits_len := 11; bits_size := 95 |}) with 72 in Hint.
    assert (10 ≤ length_penalty (Z.of_nat (length (c :: pw)))).
    { unfold length_penalty. repeat case_match; lia. }
    destruct (bool_decide _), (_has_repeats _), (_has_sequence _); lia.
  - destruct (bool_decide _), (_has_repeats _), (_has_sequence _); lia.
  - intros Hc. rewrite (bool_decide_eq_true_2 _ Hc) in Hs.
    destruct (_has_repeats _), (_has_sequence _); lia.
Qed.
End ScoreTheorems.

(** Two ideographs. *)
Lemma caseless_letters_score_zero_witness :
  let r := rate_password (H := cjk_ideographs) [0x4E2D; 0x6587]%N in
  score r = 0 ∧ rating r = "Very Weak"%string ∧ entropy r = 0.
Proof.
  apply (caseless_letters_score_zero (H := cjk_ideographs)); [done|].
  repeat constructor.
Defined.

Lemma ascii_password_has_a_class_witness :
  1 ≤ variety (H := cjk_ideographs) [0x4E2D; 0x37]%N ∧
  10 ≤ _charset_size (H := cjk_ideographs) [0x4E2D; 0x37]%N.
Proof.
  apply (ascii_password_has_a_class (H := cjk_ideographs) _ 0x37%N);
    [by right; left | reflexivity].
Defined.

Lemma common_password_very_weak_witness :
  let r := rate_password (H := ascii_only) (str "PassWord1") in
  score r < 25 ∧ rating r = "Very Weak"%string ∧
  "Appears in common-password lists."%string ∈ feedback r.
Proof.
  apply (common_password_very_weak (H := ascii_only)); [reflexivity|].
  refine (bool_decide_unpack _ _). vm_compute. exact I.
Defined.

Lemma short_password_at_most_weak_witness :
  let r := rate_password (H := ascii_only) (str "xK9!mQ#") in
  score r ≤ 35 ∧ (rating r = "Very Weak"%string ∨ rating r = "Weak"%string).
Proof.
  apply (short_password_at_most_weak (H := ascii_only)). vm_compute. lia.
Defined.

Lemma excellent_needs_witness :
  (12 ≤ length (str "Tr0ub4dor&9xZp!Qm"))%nat ∧
  2 ≤ variety (H := ascii_only) (str "Tr0ub4dor&9xZp!Qm") ∧
  lower (H := ascii_only) (str "Tr0ub4dor&9xZp!Qm") ∉ COMMON.
Proof.
  apply (excellent_needs (H := ascii_only)). vm_compute. reflexivity.
Defined.

Section FeedbackTheorems.
Context `{Unicode}.

Lemma collected_NoDup (pw : pystr) : NoDup (collected pw).
Proof.
  destruct (decide (pw = [])) as [->|Hne].
  { apply NoDup_singleton. }
  rewrite collected_eq by done.
  destruct (bool_decide (lower pw ∈ COMMON)),
    (Z.of_nat (length pw) <? 8), (Z.of_nat (length pw) <? 12),
    (_has_repeats pw), (_has_sequence pw), (variety pw <=? 2),
    (score (rate_password pw) <? 45), (score (rate_password pw) <? 85),
    (Z.of_nat (length pw) <? 16);
    refine (bool_decide_unpack _ _); vm_compute; exact I.
Qed.

Lemma feedback_is_collected (pw : pystr) :
  feedback (rate_password pw) = collected pw.
Proof.
  rewrite feedback_is_dedupe. apply dedupe_NoDup_id, collected_NoDup.
Qed.

Lemma variety_3_size (pw : pystr) : 3 ≤ variety pw → 62 ≤ _charset_size pw.
Proof.
  unfold variety, _charset_size.
  destruct (_has_lower pw), (_has_upper pw), (_has_digit pw),
    (_has_symbol pw); simpl; lia.
Qed.

(** X11. The advisories of [rate_password] are distinct before the
    [# dedupe] loop runs: the loop removes nothing, and the feedback is
    the list of advisories in the order they were appended. *)
Theorem dedupe_removes_nothing (pw : pystr) :
  NoDup (collected pw) ∧ feedback (rate_password pw) = collected pw.
Proof. split; [apply collected_NoDup | apply feedback_is_collected]. Qed.

(** X12. A non-empty password gets no advisory exactly when it is not on
    the common list, has no repeat and no sequence, shows at least three
    character classes and is either at least 16 characters long or at
    least 12 characters long and rated Excellent. *)
Theorem feedback_empty_iff (pw : pystr) :
  pw ≠ [] →
  (feedback (rate_password pw) = [] ↔
   (lower pw ∉ COMMON) ∧ _has_repeats pw = false ∧
   _has_sequence pw = false ∧ 3 ≤ variety pw ∧
   ((16 ≤ length pw)%nat ∨
    (12 ≤ length pw)%nat ∧ rating (rate_password pw) = "Excellent"%string)).
Proof.
  intros Hne. rewrite feedback_is_collected, collected_eq by done.
  rewrite rating_is_rating_of.
  pose proof (rating_of_cases (score (rate_password pw)))
    as (_ & _ & _ & _ & Hex).
  pose proof (rating_of_excellent (score (rate_password pw))) as Hex'.
  split.
  - intros E.
    case_bool_decide as Hc; [discriminate E|].
    destruct (Z.ltb_spec (Z.of_nat (length pw)) 8); [discriminate E|].
    destruct (Z.ltb_spec (Z.of_nat (length pw)) 12); [discriminate E|].
    destruct (_has_repeats pw); [discriminate E|].
    destruct (_has_sequence pw); [discriminate E|].
    destruct (Z.leb_spec (variety pw) 2); [discriminate E|].
    destruct (Z.ltb_spec (score (rate_password pw)) 45); [discriminate E|].
    destruct (Z.ltb_spec (score (rate_password pw)) 85),
      (Z.ltb_spec (Z.of_nat (length pw)) 16); try discriminate E;
      (repeat split; [done.. | lia | ]); (right + left);
      try (split; [|apply Hex]); lia.
  - intros (Hc & Hr & Hs & Hv & Hlen).
    assert (12 ≤ length pw)%nat as H12 by (destruct Hlen as [|[]]; lia).
    assert (81 ≤ score (rate_password pw)) as Hsc.
    { rewrite score_nonempty, penalties_length_only by done.
      assert (length_penalty (Z.of_nat (length pw)) = 0) as ->.
      { unfold length_penalty. repeat case_match; lia. }
      unfold base.
      assert (71 ≤ int (estimate_entropy_bits pw)); [|lia].
      destruct pw as [|c pw]; [done|]. unfold estimate_entropy_bits.
      change 71 with (int {| bits_len := 12; bits_size := 62 |}).
      apply int_mono2; [|done].
      pose proof (variety_3_size (c :: pw) Hv). lia. }
    rewrite (bool_decide_eq_false_2 _ Hc), Hr, Hs.
    destruct (Z.ltb_spec (Z.of_nat (length pw)) 8); [lia|].
    destruct (Z.ltb_spec (Z.of_nat (length pw)) 12); [lia|].
    destruct (Z.leb_spec (variety pw) 2); [lia|].
    destruct (Z.ltb_spec (score (rate_password pw)) 45); [lia|].
    destruct (Z.ltb_spec (score (rate_password pw)) 85),
      (Z.ltb_spec (Z.of_nat (length pw)) 16); try reflexivity.
    exfalso. destruct Hlen as [|[_ Hx%Hex']]; lia.
Qed.

Lemma has_class_app (f : N → bool) (p r : pystr) :
  b2z (existsb f p) ≤ b2z (existsb f (p ++ r)).
Proof.
  rewrite existsb_app. destruct (existsb f p), (existsb f r); simpl; lia.
Qed.

(** X13. Appending characters to a password never lowers its score, as
    long as neither the password nor the longer one triggers the
    common-password, repeat or sequence penalty; the classes present may
    grow. *)
Theorem score_monotone_under_extension (p r : pystr) :
  lower p ∉ COMMON → lower (p ++ r) ∉ COMMON →
  _has_repeats p = false → _has_repeats (p ++ r) = false →
  _has_sequence p = false → _has_sequence (p ++ r) = false →
  score (rate_password p) ≤ score (rate_password (p ++ r)).
Proof.
  intros Hcp Hcq Hrp Hrq Hsp Hsq.
  destruct p as [|a p].
  { apply score_range. }
  rewrite !score_nonempty by done.
  rewrite !penalties_length_only by done.
  assert (length_penalty (Z.of_nat (length ((a :: p) ++ r)))
          ≤ length_penalty (Z.of_nat (length (a :: p)))) as Hp.
  { apply length_penalty_antitone. rewrite length_app. lia. }
  assert (base (a :: p) ≤ base ((a :: p) ++ r)) as Hb; [|lia].
  pose proof (has_class_app islower (a :: p) r) as Hl.
  pose proof (has_class_app isupper (a :: p) r) as Hu.
  pose proof (has_class_app isdigit (a :: p) r) as Hd.
  pose proof (has_class_app (λ c, negb (isalnum c)) (a :: p) r) as Hy.
  assert (variety (a :: p) ≤ variety ((a :: p) ++ r)) as Hv.
  { unfold variety, _has_lower, _has_upper, _has_digit, _has_symbol. lia. }
  assert (_charset_size (a :: p) ≤ _charset_size ((a :: p) ++ r)) as Hsz.
  { unfold _charset_size, _has_lower, _has_upper, _has_digit, _has_symbol.
    revert Hl Hu Hd Hy.
    generalize (existsb islower (a :: p)), (existsb isupper (a :: p)),
      (existsb isdigit (a :: p)),
      (existsb (λ c, negb (isalnum c)) (a :: p)),
      (existsb islower ((a :: p) ++ r)), (existsb isupper ((a :: p) ++ r)),
      (existsb isdigit ((a :: p) ++ r)),
      (existsb (λ c, negb (isalnum c)) ((a :: p) ++ r)).
    intros [] [] [] [] [] [] [] []; simpl; lia. }
  unfold base.
  assert (int (estimate_entropy_bits (a :: p))
          ≤ int (estimate_entropy_bits ((a :: p) ++ r))); [|lia].
  cbn [app]. unfold estimate_entropy_bits.
  apply int_mono2.
  - pose proof (charset_size_pos (a :: p)). cbn [app] in Hsz. lia.
  - cbn [length]. rewrite length_app. lia.
Qed.
End FeedbackTheorems.

Lemma feedback_empty_iff_witness :
  feedback (rate_password (H := ascii_only) (str "Tr0ub4dor&9xZp!Qm")) = [] ↔
  (lower (H := ascii_only) (str "Tr0ub4dor&9xZp!Qm") ∉ COMMON) ∧
  _has_repeats (str "Tr0ub4dor&9xZp!Qm") = false ∧
  _has_sequence (H := ascii_only) (str "Tr0ub4dor&9xZp!Qm") = false ∧
  3 ≤ variety (H := ascii_only) (str "Tr0ub4dor&9xZp!Qm") ∧
  ((16 ≤ length (str "Tr0ub4dor&9xZp!Qm"))%nat ∨
   (12 ≤ length (str "Tr0ub4dor&9xZp!Qm"))%nat ∧
   rating (rate_password (H := ascii_only) (str "Tr0ub4dor&9xZp!Qm"))
   = "Excellent"%string).
Proof. apply (feedback_empty_iff (H := ascii_only)). discriminate. Defined.

(** A five-character password and the same with two more classes added. *)
Lemma score_monotone_under_extension_witness :
  score (rate_password (H := ascii_only) (str "kxvmt"))
  ≤ score (rate_password (H := ascii_only) (str "kxvmt" ++ str "7!Q")).
Proof.
  apply (score_monotone_under_extension (H := ascii_only));
    try (vm_compute; reflexivity);
    refine (proj1 (bool_decide_eq_false _) _); vm_compute; reflexivity.
Defined.

(** * Further properties of the generator *)

(** *** The pool *)

(** X14. The pool of [build_charset] never lists a character twice, and
    each class brings 26, 26, 10 and 16 characters to it, or 24, 24, 8 and
    15 once the ambiguous characters are left out. *)
Theorem build_charset_distinct_and_size
    (lower upper digits symbols no_amb : bool) :
  NoDup (build_charset lower upper digits symbols no_amb) ∧
  Z.of_nat (length (build_charset lower upper digits symbols no_amb))
  = if no_amb
    then 24 * b2z lower + 24 * b2z upper + 8 * b2z digits + 15 * b2z symbols
    else 26 * b2z lower + 26 * b2z upper + 10 * b2z digits + 16 * b2z symbols.
Proof.
  destruct lower, upper, digits, symbols, no_amb;
    (split; [refine (bool_decide_unpack _ _); vm_compute; exact I
            | vm_compute; reflexivity]).
Qed.

(** *** What the overwrite loop does to a buffer *)

Lemma overwritten_length pools pw pw' :
  overwritten pools pw pw' → length pw' = length pw.
Proof.
  induction 1 as [|pool pools pw idx c pw' _ _ _ IH]; [done|].
  by rewrite IH, length_insert.
Qed.

Lemma ambiguous_count_insert (pw : pystr) (i : nat) (c : N) :
  (ambiguous_count (<[i:=c]> pw) ≤ ambiguous_count pw + 1)%nat.
Proof.
  unfold ambiguous_count. revert i.
  induction pw as [|a pw IH]; intros [|i]; simpl; try lia.
  - rewrite !filter_cons. repeat case_decide; simpl; lia.
  - rewrite !filter_cons. specialize (IH i).
    case_decide; simpl; lia.
Qed.

Lemma overwritten_ambiguous pools pw pw' :
  overwritten pools pw pw' →
  (ambiguous_count pw' ≤ ambiguous_count pw + length pools)%nat.
Proof.
  induction 1 as [|pool pools pw idx c pw' _ _ _ IH]; simpl; [lia|].
  pose proof (ambiguous_count_insert pw idx c). lia.
Qed.

Lemma overwritten_last pools pool pw pw' :
  overwritten pools pw pw' → last pools = Some pool →
  ∃ c, c ∈ pw' ∧ c ∈ pool.
Proof.
  induction 1 as [|p pools pw idx c pw' Hidx Hc Hrest IH]; [done|].
  destruct pools as [|p' pools].
  - intros [= <-]. inversion Hrest; subst. exists c. split; [|done].
    eapply list_elem_of_lookup_2. by apply list_lookup_insert_eq.
  - intros Hlast. by apply IH.
Qed.

Lemma ambiguous_count_none (pw : pystr) :
  Forall (λ c, c ∉ AMBIGUOUS) pw → ambiguous_count pw = 0%nat.
Proof.
  unfold ambiguous_count. induction 1 as [|c pw Hc _ IH]; [done|].
  by rewrite filter_cons_False.
Qed.

Section GeneratorExtras.
Variable tape : nat → nat.

(** *** Rules for computations that count their draws *)

Lemma draws_ret {A} (a : A) (P : A → Prop) : P a → draws (mret a) 0 P.
Proof. intros Pa k. exists a. by rewrite Nat.add_0_r. Qed.

Lemma draws_bind {A B} (m : Rand A) (f : A → Rand B) (n1 n2 : nat)
    (P : A → Prop) (Q : B → Prop) :
  draws m n1 P → (∀ a, P a → draws (f a) n2 Q) →
  draws (m ≫= f) (n1 + n2) Q.
Proof.
  intros Hm Hf k.
  destruct (Hm k) as (a & Em & Pa).
  destruct (Hf a Pa (k + n1)%nat) as (b & Ef & Qb).
  exists b. split; [|done].
  unfold mbind, rand_bind. by rewrite Em, Ef, Nat.add_assoc.
Qed.

Lemma draws_weaken {A} (m : Rand A) (n n' : nat) (P Q : A → Prop) :
  draws m n P → n = n' → (∀ a, P a → Q a) → draws m n' Q.
Proof.
  intros Hm <- HPQ k. destruct (Hm k) as (a & E & Pa). eauto.
Qed.

Lemma randbelow_draws n :
  (0 < n)%nat → draws (randbelow tape n) 1 (λ i, (i < n)%nat).
Proof.
  intros Hn k. destruct n as [|n]; [lia|].
  exists (tape k mod S n)%nat. split.
  - unfold randbelow. by rewrite Nat.add_1_r.
  - apply Nat.mod_upper_bound. lia.
Qed.

Lemma getitem_draws sq i :
  (i < length sq)%nat → draws (getitem sq i) 0 (λ c, sq !! i = Some c).
Proof.
  intros Hi. unfold getitem.
  destruct (lookup_lt_is_Some_2 sq i Hi) as [c Hc]. rewrite Hc.
  by apply draws_ret.
Qed.

Lemma setitem_draws sq i c :
  (i < length sq)%nat → draws (setitem sq i c) 0 (λ sq', sq' = <[i:=c]> sq).
Proof.
  intros Hi. unfold setitem.
  rewrite (proj2 (Nat.ltb_lt _ _) Hi). by apply draws_ret.
Qed.

Lemma draws_bind_eq {A B} (m : Rand A) (f : A → Rand B) (n1 n2 n : nat)
    (P : A → Prop) (Q : B → Prop) :
  draws m n1 P → (∀ a, P a → draws (f a) n2 Q) → n = (n1 + n2)%nat →
  draws (m ≫= f) n Q.
Proof. intros Hm Hf ->. by eapply draws_bind. Qed.

Lemma choice_draws sq :
  sq ≠ [] → draws (choice tape sq) 1 (λ c, c ∈ sq).
Proof.
  intros Hsq. destruct sq as [|a sq]; [done|]. unfold choice.
  eapply (draws_bind_eq _ _ 1 0);
    [apply randbelow_draws; simpl; lia | | done].
  intros i Hi.
  eapply draws_weaken; [apply getitem_draws, Hi | done |].
  intros c Hc. simpl in Hc. eapply list_elem_of_lookup_2, Hc.
Qed.

Lemma comprehension_draws {A} (m : Rand A) (d : nat) (P : A → Prop) n :
  draws m d P →
  draws (comprehension n m) (n * d) (λ l, length l = n ∧ Forall P l).
Proof.
  intros Hm. induction n as [|n IH]; simpl.
  - by apply draws_ret.
  - eapply (draws_bind_eq _ _ d (n * d)); [exact Hm | | done].
    intros x Px.
    eapply (draws_bind_eq _ _ (n * d) 0); [exact IH | | lia].
    intros xs [Hlen Hxs]. apply draws_ret. simpl. auto.
Qed.

Lemma ensure_complexity_draws pools pw :
  pw ≠ [] → Forall (λ pool, pool ≠ []) pools →
  draws (ensure_complexity tape pools pw) (2 * length pools)
        (overwritten pools pw).
Proof.
  intros Hne Hpools. revert pw Hne.
  induction Hpools as [|pool pools Hpool _ IH]; intros pw Hne.
  - apply draws_ret. constructor.
  - cbn [ensure_complexity].
    eapply (draws_bind_eq _ _ 1 (1 + 2 * length pools));
      [apply randbelow_draws; destruct pw; simpl; [done | lia]
      | | simpl; lia].
    intros idx Hidx; simpl in Hidx.
    eapply (draws_bind_eq _ _ 1 (2 * length pools));
      [by apply choice_draws | | done].
    intros c Hc; simpl in Hc.
    eapply (draws_bind_eq _ _ 0 (2 * length pools));
      [by apply setitem_draws | | done].
    intros pw' ->.
    eapply draws_weaken; [apply IH | reflexivity |].
    + intros E. apply (f_equal length) in E.
      rewrite length_insert in E. destruct pw; simpl in *; [done | lia].
    + intros pw'' Hover. by eapply overwritten_cons.
Qed.

Lemma swap_draws x i j :
  (i < length x)%nat → (j < length x)%nat →
  draws (swap x i j) 0 (λ x', x' ≡ₚ x).
Proof.
  intros Hi Hj. unfold swap.
  eapply (draws_bind_eq _ _ 0 0); [by apply getitem_draws | | done].
  intros xj Hxj; simpl in Hxj.
  eapply (draws_bind_eq _ _ 0 0); [by apply getitem_draws | | done].
  intros xi Hxi; simpl in Hxi.
  eapply (draws_bind_eq _ _ 0 0); [by apply setitem_draws | | done].
  intros x1 ->.
  eapply draws_weaken;
    [apply setitem_draws; by rewrite length_insert | done |].
  intros x2 ->. by apply Permutation_insert_swap.
Qed.

Lemma shuffle_loop_draws idxs x :
  Forall (λ i, (i < length x)%nat) idxs →
  draws (shuffle_loop tape idxs x) (length idxs) (λ x', x' ≡ₚ x).
Proof.
  revert x. induction idxs as [|i idxs IH]; intros x Hidxs.
  - by apply draws_ret.
  - apply Forall_cons in Hidxs as [Hi Hidxs]. cbn [shuffle_loop].
    eapply (draws_bind_eq _ _ 1 (length idxs));
      [apply randbelow_draws; lia | | done].
    intros j Hj; simpl in Hj.
    eapply (draws_bind_eq _ _ 0 (length idxs));
      [apply swap_draws; [done | lia] | | done].
    intros x' Hx'.
    eapply draws_weaken; [apply IH | reflexivity |].
    + eapply Forall_impl; [exact Hidxs|]. intros i' Hi'.
      by rewrite (Permutation_length Hx').
    + intros x'' Hx''. simpl. by rewrite Hx''.
Qed.

Lemma shuffle_draws x :
  draws (shuffle tape x) (length x - 1) (λ x', x' ≡ₚ x).
Proof.
  eapply draws_weaken; [apply shuffle_loop_draws | | done].
  - apply Forall_forall. intros i Hi.
    apply list_elem_of_In, in_rev, list_elem_of_In, elem_of_seq in Hi. lia.
  - by rewrite length_rev, length_seq.
Qed.

Lemma class_pools_nonempty lower upper digits symbols :
  Forall (λ pool, pool ≠ []) (class_pools lower upper digits symbols).
Proof.
  eapply Forall_impl; [apply class_pools_selected|]. by intros pool [? _].
Qed.

(** The generator on valid parameters, step by step. *)
Lemma generate_password_draws length lower upper digits symbols no_amb :
  valid_params length lower upper digits symbols →
  let charset := build_charset lower upper digits symbols no_amb in
  let pools := class_pools lower upper digits symbols in
  let n := Z.to_nat length in
  draws
    (generate_password tape length lower upper digits symbols no_amb)
    (2 * n + 2 * List.length pools - 1)
    (λ pw, ∃ filled over,
       List.length filled = n ∧ Forall (λ c, c ∈ charset) filled ∧
       overwritten pools filled over ∧ pw ≡ₚ over).
Proof.
  intros [Hany Hlen] charset pools n. unfold generate_password.
  rewrite Hany. simpl negb. cbv iota.
  rewrite (proj2 (Z.ltb_ge _ _) Hlen).
  assert (4 ≤ n)%nat as Hn by (unfold n; lia).
  eapply (draws_bind_eq _ _ (n * 1) (2 * List.length pools + (n - 1)));
    [|  | lia].
  { apply comprehension_draws, choice_draws.
    by apply build_charset_nonempty. }
  intros filled [Hfilled Hsel]. fold n in Hfilled.
  eapply (draws_bind_eq _ _ (2 * List.length pools) (n - 1)); [| | done].
  { apply ensure_complexity_draws; [|apply class_pools_nonempty].
    intros ->. simpl in Hfilled. lia. }
  intros over Hover.
  eapply (draws_bind_eq _ _ (n - 1) 0); [| | lia].
  { eapply draws_weaken; [apply shuffle_draws | | intros a Ha; exact Ha].
    by rewrite (overwritten_length _ _ _ Hover), Hfilled. }
  intros pw Hpw. apply draws_ret. by exists filled, over.
Qed.

(** The first failing test raises before anything is drawn. *)
Lemma generate_password_invalid length lower upper digits symbols no_amb k :
  ¬ valid_params length lower upper digits symbols →
  ∃ msg,
    generate_password tape length lower upper digits symbols no_amb k
    = (Raised (ValueError msg), k).
Proof.
  intros Hinv. unfold generate_password.
  destruct (lower || upper || digits || symbols) eqn:Hany; simpl;
    [|eauto].
  destruct (Z.ltb_spec length
              (Z.max 4 (b2z lower + b2z upper + b2z digits + b2z symbols)));
    [eauto|].
  destruct Hinv. by split.
Qed.

Lemma draws_and_returns {A} (m : Rand A) (n : nat) (P Q : A → Prop) :
  draws m n P → returns m Q → draws m n (λ a, P a ∧ Q a).
Proof.
  intros Hd Hr k. destruct (Hd k) as (a & E & Pa).
  destruct (Hr k) as (a' & k' & E' & Qa').
  exists a. rewrite E in E'. by simplify_eq.
Qed.

(** X15. On valid parameters the result of [generate_password] is a
    permutation of a buffer of [length] characters drawn from the pool of
    [build_charset], in which one position per enabled class, in the
    order lower, upper, digits, symbols, received a character of that
    class. *)
Theorem generate_password_structure
    (length : Z) (lower upper digits symbols no_amb : bool) (k : nat) :
  valid_params length lower upper digits symbols →
  ∃ pw k' filled over,
    generate_password tape length lower upper digits symbols no_amb k
    = (Returned pw, k') ∧
    Z.of_nat (List.length filled) = length ∧
    (∀ c, c ∈ filled →
          c ∈ build_charset lower upper digits symbols no_amb) ∧
    overwritten (class_pools lower upper digits symbols) filled over ∧
    pw ≡ₚ over.
Proof.
  intros Hvalid.
  destruct (generate_password_draws length lower upper digits symbols no_amb
              Hvalid k) as (pw & E & filled & over & Hlen & Hsel & Ho & Hp).
  eexists pw, _, filled, over. split; [exact E|].
  destruct Hvalid as [_ Hv].
  split; [lia|]. split; [by apply Forall_forall | done].
Qed.

(** X16. On valid parameters [generate_password] makes exactly
    [2 * length + 2 * classes - 1] draws from the random source, where
    [classes] is the number of enabled classes: [length] for the fill,
    two per class for the overwrites, [length - 1] for the shuffle. *)
Theorem generate_password_draw_count
    (length : Z) (lower upper digits symbols no_amb : bool) (k : nat) :
  valid_params length lower upper digits symbols →
  ∃ pw,
    generate_password tape length lower upper digits symbols no_amb k
    = (Returned pw,
       (k + (2 * Z.to_nat length
             + 2 * List.length (class_pools lower upper digits symbols)
             - 1))%nat).
Proof.
  intros Hvalid.
  destruct (generate_password_draws length lower upper digits symbols no_amb
              Hvalid k) as (pw & E & _).
  by exists pw.
Qed.

(** X17. With the ambiguous characters excluded, the fill writes none of
    them and each overwrite can bring back at most one: the result holds
    at most as many denylist characters as there are enabled classes. *)
Theorem generate_password_ambiguous_bound
    (length : Z) (lower upper digits symbols : bool) (k : nat) :
  valid_params length lower upper digits symbols →
  ∃ pw k',
    generate_password tape length lower upper digits symbols true k
    = (Returned pw, k') ∧
    (ambiguous_count pw
     ≤ List.length (class_pools lower upper digits symbols))%nat.
Proof.
  intros Hvalid.
  destruct (generate_password_draws length lower upper digits symbols true
              Hvalid k) as (pw & E & filled & over & Hlen & Hsel & Ho & Hp).
  eexists pw, _. split; [exact E|].
  pose proof (overwritten_ambiguous _ _ _ Ho) as Hcount.
  rewrite (ambiguous_count_none filled) in Hcount.
  - unfold ambiguous_count in *. rewrite Hp. lia.
  - eapply Forall_impl; [exact Hsel|]. intros c.
    apply build_charset_no_ambiguous.
Qed.

(** X18. The class overwritten last always shows in the result: on valid
    parameters the password holds a symbol if symbols are enabled, else a
    digit if digits are, else an uppercase letter if those are, else a
    lowercase letter. *)
Theorem generate_password_last_class_present
    (length : Z) (lower upper digits symbols no_amb : bool) (k : nat) :
  valid_params length lower upper digits symbols →
  let pool :=
    if symbols then symbol_chars
    else if digits then string_digits
    else if upper then string_ascii_uppercase
    else string_ascii_lowercase in
  ∃ pw k',
    generate_password tape length lower upper digits symbols no_amb k
    = (Returned pw, k') ∧
    ∃ c, c ∈ pw ∧ c ∈ pool.
Proof.
  intros Hvalid pool.
  destruct (generate_password_draws length lower upper digits symbols no_amb
              Hvalid k) as (pw & E & filled & over & Hlen & Hsel & Ho & Hp).
  eexists pw, _. split; [exact E|].
  assert (last (class_pools lower upper digits symbols) = Some pool)
    as Hlast.
  { destruct Hvalid as [Hany _]. unfold pool, class_pools.
    by destruct lower, upper, digits, symbols. }
  destruct (overwritten_last _ _ _ _ Ho Hlast) as (c & Hc & Hpool).
  exists c. split; [by rewrite Hp | done].
Qed.

(** *** The Generate button *)

Lemma generate_loop_draws how_many length lower upper digits symbols no_amb
    (out : list pystr) :
  valid_params length lower upper digits symbols →
  let d := (2 * Z.to_nat length
            + 2 * List.length (class_pools lower upper digits symbols)
            - 1)%nat in
  draws
    (generate_loop tape how_many length lower upper digits symbols no_amb
       out)
    (how_many * d)
    (λ res, ∃ new,
       res = out ++ new ∧ List.length new = how_many ∧
       Forall (λ p, Z.of_nat (List.length p) = length ∧
                    Forall (in_selected lower upper digits symbols) p)
              new).
Proof.
  intros Hvalid d. revert out.
  induction how_many as [|how_many IH]; intros out; cbn [generate_loop].
  - apply draws_ret. exists []. by rewrite app_nil_r.
  - eapply (draws_bind_eq _ _ d (how_many * d)); [| | done].
    { apply draws_and_returns.
      - by apply generate_password_draws.
      - by apply generate_password_returns. }
    intros p [_ Hp].
    eapply draws_weaken; [apply IH | done |].
    intros res (new & -> & Hlen & Hnew). exists (p :: new).
    split; [by rewrite <-(assoc_L (++))|].
    split; [simpl; by rewrite Hlen|]. by constructor.
Qed.

(** X19. With valid parameters the Generate button obtains exactly
    [how_many] passwords, each of [length] characters from the enabled
    classes, and makes [how_many] times the draws of one password. *)
Theorem generate_batch_valid
    (how_many : nat) (length : Z) (lower upper digits symbols no_amb : bool)
    (k : nat) :
  valid_params length lower upper digits symbols →
  ∃ out,
    generate_batch tape how_many length lower upper digits symbols no_amb k
    = (Returned out,
       (k + how_many
            * (2 * Z.to_nat length
               + 2 * List.length (class_pools lower upper digits symbols)
               - 1))%nat) ∧
    List.length out = how_many ∧
    Forall (λ p, Z.of_nat (List.length p) = length ∧
                 Forall (in_selected lower upper digits symbols) p) out.
Proof.
  intros Hvalid. unfold generate_batch.
  destruct (generate_loop_draws how_many length lower upper digits symbols
              no_amb [] Hvalid k) as (res & E & new & -> & Hlen & Hnew).
  by exists new.
Qed.

(** X20. With invalid parameters and at least one password asked for,
    the Generate button fails on the first call: the [ValueError] of the
    validation comes out, nothing was drawn and no list is produced. *)
Theorem generate_batch_invalid
    (how_many : nat) (length : Z) (lower upper digits symbols no_amb : bool)
    (k : nat) :
  ¬ valid_params length lower upper digits symbols → (0 < how_many)%nat →
  ∃ msg,
    generate_batch tape how_many length lower upper digits symbols no_amb k
    = (Raised (ValueError msg), k).
Proof.
  intros Hinv Hmany. destruct how_many as [|how_many]; [lia|].
  destruct (generate_password_invalid length lower upper digits symbols
              no_amb k Hinv) as [msg E].
  exists msg. unfold generate_batch. cbn [generate_loop].
  unfold mbind, rand_bind. by rewrite E.
Qed.
End GeneratorExtras.

(** Four lowercase characters without the ambiguous ones, on the tape
    that always yields 11. *)
Lemma generate_password_structure_witness :
  ∃ pw k' filled over,
    generate_password (λ _, 11%nat) 4 true false false false true 0%nat
    = (Returned pw, k') ∧
    Z.of_nat (length filled) = 4 ∧
    (∀ c, c ∈ filled → c ∈ build_charset true false false false true) ∧
    overwritten (class_pools true false false false) filled over ∧
    pw ≡ₚ over.
Proof.
  apply generate_password_structure. split; [reflexivity | simpl; lia].
Defined.

(** Sixteen characters of all four classes: 39 draws. *)
Lemma generate_password_draw_count_witness :
  ∃ pw,
    generate_password (λ k, (7 * k + 3)%nat) 16 true true true true false
      0%nat
    = (Returned pw, 39%nat).
Proof.
  apply (generate_password_draw_count (λ k, (7 * k + 3)%nat) 16 true true
           true true false 0%nat).
  split; [reflexivity | simpl; lia].
Defined.

Lemma generate_password_ambiguous_bound_witness :
  ∃ pw k',
    generate_password (λ _, 11%nat) 4 true false false false true 0%nat
    = (Returned pw, k') ∧
    (ambiguous_count pw ≤ length (class_pools true false false false))%nat.
Proof.
  apply generate_password_ambiguous_bound.
  split; [reflexivity | simpl; lia].
Defined.

(** Lower case and digits enabled: a digit is in the result. *)
Lemma generate_password_last_class_present_witness :
  ∃ pw k',
    generate_password (λ k, (5 * k)%nat) 8 true false true false false 0%nat
    = (Returned pw, k') ∧
    ∃ c, c ∈ pw ∧ c ∈ string_digits.
Proof.
  apply (generate_password_last_class_present (λ k, (5 * k)%nat) 8 true
           false true false false 0%nat).
  split; [reflexivity | simpl; lia].
Defined.

(** Three passwords of eight characters: 3 times 23 draws. *)
Lemma generate_batch_valid_witness :
  ∃ out,
    generate_batch (λ k, (5 * k)%nat) 3 8 true true true true false 0%nat
    = (Returned out, 69%nat) ∧
    length out = 3%nat ∧
    Forall (λ p, Z.of_nat (length p) = 8 ∧
                 Forall (in_selected true true true true) p) out.
Proof.
  apply (generate_batch_valid (λ k, (5 * k)%nat) 3 8 true true true true
           false 0%nat).
  split; [reflexivity | simpl; lia].
Defined.

(** No class checked. *)
Lemma generate_batch_invalid_witness :
  ∃ msg,
    generate_batch (λ k, (5 * k)%nat) 3 16 false false false false false
      7%nat
    = (Raised (ValueError msg), 7%nat).
Proof.
  apply generate_batch_invalid; [|lia].
  intros [Hany _]. discriminate Hany.
Defined.

(** *** A class can be missing *)

Lemma bind_returned {A B} (m : Rand A) (f : A → Rand B) (k k' : nat)
    (a : A) :
  m k = (Returned a, k') → (m ≫= f) k = f a k'.
Proof. intros E. unfold mbind, rand_bind. by rewrite E. Qed.

Lemma randbelow_at (tape : nat → nat) (b k : nat) :
  (0 < b)%nat → randbelow tape b k = (Returned (tape k mod b)%nat, S k).
Proof. intros Hb. destruct b; [lia | done]. Qed.

Lemma choice_at (tape : nat → nat) (sq : pystr) (k : nat) (c : N) :
  sq !! (tape k mod length sq)%nat = Some c →
  choice tape sq k = (Returned c, S k).
Proof.
  intros Hc. destruct sq as [|a sq]; [done|]. unfold choice.
  rewrite (bind_returned _ _ _ _ _
             (randbelow_at tape (length (a :: sq)) k ltac:(simpl; lia))).
  unfold getitem. by rewrite Hc.
Qed.

Lemma setitem_at (sq : pystr) (i : nat) (c : N) (k : nat) :
  (i < length sq)%nat → setitem sq i c k = (Returned (<[i:=c]> sq), k).
Proof.
  intros Hi. unfold setitem. by rewrite (proj2 (Nat.ltb_lt _ _) Hi).
Qed.

(** The fill on a stretch of the tape that always yields [v]. *)
Lemma comprehension_constant (tape : nat → nat) (sq : pystr) (c : N)
    (v n : nat) :
  (∀ j, (j < n)%nat → tape j = v) →
  sq !! (v mod length sq)%nat = Some c →
  ∀ m k, (k + m ≤ n)%nat →
    comprehension m (choice tape sq) k
    = (Returned (replicate m c), (k + m)%nat).
Proof.
  intros Htape Hc. induction m as [|m IH]; intros k Hk.
  - simpl. by rewrite Nat.add_0_r.
  - cbn [comprehension].
    rewrite (bind_returned _ _ k (S k) c).
    + rewrite (bind_returned _ _ _ _ _ (IH (S k) ltac:(lia))).
      simpl. by rewrite Nat.add_succ_r.
    + apply choice_at. rewrite Htape by lia. exact Hc.
Qed.

(** X21. The overwrites do not guarantee every enabled class: for every
    length from 4 on there are draws for which [generate_password], with
    lowercase letters and digits enabled, returns the digit 0 at every
    position, hence no lowercase letter. *)
Theorem generate_password_can_miss_a_class (length : Z) :
  4 ≤ length →
  ∃ tape k',
    generate_password tape length true false true false false 0%nat
    = (Returned (replicate (Z.to_nat length) 48%N), k') ∧
    Forall (λ c, c ∉ string_ascii_lowercase)
           (replicate (Z.to_nat length) 48%N).
Proof.
  intros Hlen. set (n := Z.to_nat length).
  assert (4 ≤ n)%nat as Hn by (unfold n; lia).
  set (tape := λ j : nat, if (j <? n)%nat then 26%nat else 0%nat).
  assert (∀ j, (j < n)%nat → tape j = 26%nat) as Hlow.
  { intros j Hj. unfold tape. by rewrite (proj2 (Nat.ltb_lt _ _) Hj). }
  assert (∀ j, (n ≤ j)%nat → tape j = 0%nat) as Hhigh.
  { intros j Hj. unfold tape. by rewrite (proj2 (Nat.ltb_ge _ _) Hj). }
  set (zeros := replicate n 48%N).
  assert (List.length zeros = n) as Hzeros by apply length_replicate.
  destruct (shuffle_draws tape zeros (n + 4)%nat) as (pw & Eshuffle & Hperm).
  apply symmetry, replicate_Permutation in Hperm. subst pw.
  assert (ensure_complexity tape [string_ascii_lowercase; string_digits]
            zeros n
          = (Returned zeros, (n + 4)%nat)) as Eensure.
  { cbn [ensure_complexity].
    rewrite (bind_returned _ _ n (S n) 0%nat).
    2:{ rewrite randbelow_at by lia. by rewrite Hhigh, Nat.Div0.mod_0_l. }
    rewrite (bind_returned _ _ (S n) (S (S n)) 97%N).
    2:{ apply choice_at. by rewrite Hhigh by lia. }
    rewrite (bind_returned _ _ _ _ _
               (setitem_at zeros 0 97%N (S (S n)) ltac:(lia))).
    rewrite (bind_returned _ _ (S (S n)) (S (S (S n))) 0%nat).
    2:{ rewrite randbelow_at by (rewrite length_insert; lia).
        by rewrite Hhigh, Nat.Div0.mod_0_l by lia. }
    rewrite (bind_returned _ _ (S (S (S n))) (S (S (S (S n)))) 48%N).
    2:{ apply choice_at. by rewrite Hhigh by lia. }
    rewrite (bind_returned _ _ (S (S (S (S n)))) (S (S (S (S n))))
               zeros).
    2:{ rewrite setitem_at by (rewrite length_insert; lia).
        rewrite list_insert_insert_eq, list_insert_id; [done|].
        apply lookup_replicate_2. lia. }
    replace (S (S (S (S n)))) with (n + 4)%nat by lia. reflexivity. }
  exists tape, (n + 4 + (List.length zeros - 1))%nat. split.
  - unfold generate_password.
    change (negb (true || false || true || false)) with false. cbv iota.
    rewrite (proj2 (Z.ltb_ge _ _)) by (simpl; lia).
    fold n.
    rewrite (bind_returned _ _ 0%nat n zeros).
    2:{ apply (comprehension_constant tape _ 48%N 26 n Hlow); [done | lia]. }
    change (class_pools true false true false)
      with [string_ascii_lowercase; string_digits].
    rewrite (bind_returned _ _ _ _ _ Eensure).
    rewrite (bind_returned _ _ _ _ _ Eshuffle). reflexivity.
  - apply Forall_replicate. intros Hin%list_elem_of_In.
    vm_compute in Hin. intuition discriminate.
Qed.

Lemma generate_password_can_miss_a_class_witness :
  ∃ tape k',
    generate_password tape 6 true false true false false 0%nat
    = (Returned (replicate (Z.to_nat 6) 48%N), k') ∧
    Forall (λ c, c ∉ string_ascii_lowercase) (replicate (Z.to_nat 6) 48%N).
Proof. apply generate_password_can_miss_a_class. lia. Defined.
